(** * IV-Surface: the Black-Scholes pricers and the implied-volatility solver

    A shallow embedding of the functions of [IV_Surface.py]:
    [bs_call_no_div], [bs_call_div], [bs_put_no_div], [bs_put_div] and
    [implied_volatility] (with its nested [objective_function]).

    The four pricers are closed-form expressions over floats.  They are
    written once, over an interface [Arith] of the arithmetic they use, and
    read at three carriers:

    - [float], IEEE-754 binary64 as Python and numpy compute, where the
      library functions are taken from a record [Libm]; this is the reading
      in which [implied_volatility] runs, with its comparisons, its NaN
      sentinel, its exceptions and the name look-up in the module's
      globals, and in which the pricers are evaluated on given inputs;
    - [R], the real numbers, where [np.log], [np.exp], [np.sqrt] are [ln],
      [exp], [sqrt] and [norm.cdf] is the standard normal distribution
      function [Gauss.cdf]: the exact value of the formula each pricer
      evaluates;
    - [option R], real arithmetic with a rounding after every operation,
      the standard model of binary64 away from overflow and underflow;
      this is the reading in which the computed price is compared with the
      exact one. *)

From Stdlib Require Import Reals Lra Lia ZArith Floats String List Bool.
From stdpp Require Import base gmap strings.

(** Decimal float literals denote the nearest binary64 value, as in Python. *)
#[global] Set Warnings "-inexact-float".

(** ** The arithmetic used by the pricers *)

Class Arith (A : Type) : Type := {
  num_add : A -> A -> A;
  num_sub : A -> A -> A;
  num_mul : A -> A -> A;
  num_div : A -> A -> A;
  num_neg : A -> A;
  num_sqr : A -> A;          (* [x**2] *)
  num_two : A;               (* the literal [2] *)
  np_log : A -> A;           (* [np.log] *)
  np_exp : A -> A;           (* [np.exp] *)
  np_sqrt : A -> A;          (* [np.sqrt] *)
  norm_cdf : A -> A          (* [scipy.stats.norm.cdf] *)
}.

Declare Scope py_scope.
Delimit Scope py_scope with py.
Notation "x + y" := (num_add x y) : py_scope.
Notation "x - y" := (num_sub x y) : py_scope.
Notation "x * y" := (num_mul x y) : py_scope.
Notation "x / y" := (num_div x y) : py_scope.
Notation "- x" := (num_neg x) : py_scope.
Notation "x '**2'" := (num_sqr x) (at level 1, format "x '**2'") : py_scope.

(** ** The pricers, lines 27-53 of the source *)

Section PricingModel.
Context {A : Type} `{Arith A}.
Local Open Scope py_scope.

Definition bs_call_no_div (S K T r sigma : A) : A :=
  let N := norm_cdf in
  let d1 := (np_log (S / K) + (r + sigma**2 / num_two) * T) / (sigma * np_sqrt T) in
  let d2 := d1 - sigma * np_sqrt T in
  let call_price := S * N d1 - K * np_exp (- r * T) * N d2 in
  call_price.

Definition bs_call_div (S K T r q sigma : A) : A :=
  let N := norm_cdf in
  let d1 := (np_log (S / K) + (r - q + sigma**2 / num_two) * T) / (sigma * np_sqrt T) in
  let d2 := d1 - sigma * np_sqrt T in
  let call_price := S * np_exp (- q * T) * N d1 - K * np_exp (- r * T) * N d2 in
  call_price.

Definition bs_put_no_div (S K T r sigma : A) : A :=
  let N := norm_cdf in
  let d1 := (np_log (S / K) + (r + sigma**2 / num_two) * T) / (sigma * np_sqrt T) in
  let d2 := d1 - sigma * np_sqrt T in
  let put_price := K * np_exp (- r * T) * N (- d2) - S * N (- d1) in
  put_price.

Definition bs_put_div (S K T r q sigma : A) : A :=
  let N := norm_cdf in
  let d1 := (np_log (S / K) + (r - q + sigma**2 / num_two) * T) / (sigma * np_sqrt T) in
  let d2 := d1 - sigma * np_sqrt T in
  let put_price := K * np_exp (- r * T) * N (- d2) - S * np_exp (- q * T) * N (- d1) in
  put_price.

End PricingModel.

(** ** The standard normal distribution on the reals *)

Module Gauss.
Local Open Scope R_scope.
#[local] Abbreviation sqrt := R_sqrt.sqrt.

(** The unnormalised density e^(-t^2/2). *)
Definition gauss (t : R) : R := exp (- (t * t) / 2).

Lemma gauss_pos t : 0 < gauss t.
Proof. apply exp_pos. Qed.

Lemma gauss_even t : gauss (- t) = gauss t.
Proof. unfold gauss. f_equal. lra. Qed.

Lemma gauss_deriv t : derivable_pt_lim gauss t (- t * gauss t).
Proof.
  unfold gauss.
  pose (u := fun s : R => - (s * s) / 2).
  change (derivable_pt_lim (comp exp u) t (- t * exp (u t))).
  replace (- t * exp (u t)) with (exp (u t) * (- t)) by ring.
  apply derivable_pt_lim_comp; [ | apply derivable_pt_lim_exp ].
  unfold u.
  replace (- t) with (- (1 * t + t * 1) * / 2 ) by lra.
  apply (derivable_pt_lim_scal_right (fun s => - (s * s)) t (- (1 * t + t * 1)) (/ 2)).
  apply (derivable_pt_lim_opp (fun s => s * s)).
  apply (derivable_pt_lim_mult id id); apply derivable_pt_lim_id.
Qed.

Lemma gauss_continuity t : continuity_pt gauss t.
Proof.
  apply derivable_continuous_pt. exists (- t * gauss t). apply gauss_deriv.
Qed.

Lemma gauss_integrable a b : Riemann_integrable gauss a b.
Proof.
  destruct (Rle_dec a b) as [Hab | Hab].
  - apply continuity_implies_RiemannInt; [ exact Hab | intros; apply gauss_continuity ].
  - apply RiemannInt_P1, continuity_implies_RiemannInt; [ lra | intros; apply gauss_continuity ].
Qed.

(** The integral of [gauss] from 0 to [x] (negative when [x < 0]). *)
Definition gauss_int (x : R) : R := RiemannInt (gauss_integrable 0 x).

(** Density and distribution function of the standard normal law, as
    [scipy.stats.norm] documents them: [pdf x = exp(-x^2/2) / sqrt(2 pi)],
    and [cdf x] is the integral of [pdf] up to [x], that is one half plus
    its integral from 0 to [x]. *)
Definition pdf (x : R) : R := gauss x / sqrt (2 * PI).
Definition cdf (x : R) : R := / 2 + gauss_int x / sqrt (2 * PI).

Lemma gauss_int_chasles a x :
  RiemannInt (gauss_integrable a x) = gauss_int x - gauss_int a.
Proof.
  unfold gauss_int.
  rewrite <- (RiemannInt_P26 (gauss_integrable 0 a) (gauss_integrable a x)
                (gauss_integrable 0 x)).
  ring.
Qed.

Lemma gauss_int_0 : gauss_int 0 = 0.
Proof. unfold gauss_int. apply RiemannInt_P9. Qed.

Lemma primitive_gauss a b (h : a <= b)
      (C0 : forall x, a <= x <= b -> continuity_pt gauss x) y :
  a <= y <= b -> primitive h (FTC_P1 h C0) y = gauss_int y - gauss_int a.
Proof.
  intros [Hay Hyb]. unfold primitive.
  destruct (Rle_dec a y) as [r | n]; [ | contradiction ].
  destruct (Rle_dec y b) as [r0 | n0]; [ | contradiction ].
  rewrite <- gauss_int_chasles. apply RiemannInt_P5.
Qed.

Lemma gauss_int_deriv x : derivable_pt_lim gauss_int x (gauss x).
Proof.
  assert (h : x - 1 <= x + 1) by lra.
  assert (C0 : forall y, x - 1 <= y <= x + 1 -> continuity_pt gauss y)
    by (intros; apply gauss_continuity).
  assert (D := RiemannInt_P28 h C0 (x := x)).
  intros eps Heps.
  destruct (D ltac:(lra) eps Heps) as [delta Hd].
  assert (Hm : 0 < Rmin delta 1) by (apply Rmin_pos; [ apply cond_pos | lra ]).
  exists (mkposreal _ Hm). simpl. intros k Hk Hlt.
  assert (Hk1 : Rabs k < 1) by (eapply Rlt_le_trans; [ exact Hlt | apply Rmin_r ]).
  assert (Hkd : Rabs k < delta) by (eapply Rlt_le_trans; [ exact Hlt | apply Rmin_l ]).
  specialize (Hd k Hk Hkd).
  apply Rabs_def2 in Hk1.
  rewrite !primitive_gauss in Hd by lra.
  replace (gauss_int (x + k) - gauss_int x)
    with (gauss_int (x + k) - gauss_int (x - 1) - (gauss_int x - gauss_int (x - 1))) by ring.
  exact Hd.
Qed.

(** Consequences of the mean value theorem on a segment [[a, b]]. *)
Section MeanValue.
Variables (f f' : R -> R) (a b : R).
Hypothesis Hd : forall c, a <= c <= b -> derivable_pt_lim f c (f' c).

Lemma deriv_pos_incr :
  a < b -> (forall c, a < c < b -> 0 < f' c) -> f a < f b.
Proof.
  intros Hab Hpos.
  destruct (MVT_cor2 f f' a b Hab Hd) as [c [Hc Hin]].
  specialize (Hpos c Hin).
  assert (0 < f' c * (b - a)) by (apply Rmult_lt_0_compat; lra).
  lra.
Qed.

Lemma deriv_nonneg_nondecr :
  a <= b -> (forall c, a < c < b -> 0 <= f' c) -> f a <= f b.
Proof.
  intros [Hab | ->] Hpos; [ | lra ].
  destruct (MVT_cor2 f f' a b Hab Hd) as [c [Hc Hin]].
  specialize (Hpos c Hin).
  assert (0 <= f' c * (b - a)) by (apply Rmult_le_pos; lra).
  lra.
Qed.

Lemma deriv_zero_const :
  a <= b -> (forall c, a < c < b -> f' c = 0) -> f a = f b.
Proof.
  intros [Hab | ->] Hz; [ | reflexivity ].
  destruct (MVT_cor2 f f' a b Hab Hd) as [c [Hc Hin]].
  rewrite (Hz c Hin) in Hc. lra.
Qed.
End MeanValue.

Lemma gauss_int_opp_deriv x :
  derivable_pt_lim (fun y => gauss_int y + gauss_int (- y)) x (gauss x + gauss (- x) * -1).
Proof.
  apply derivable_pt_lim_plus; [ apply gauss_int_deriv | ].
  apply (derivable_pt_lim_comp Ropp gauss_int).
  - replace (-1) with (- 1) by ring.
    apply (derivable_pt_lim_opp id), derivable_pt_lim_id.
  - apply gauss_int_deriv.
Qed.

Lemma gauss_int_odd x : gauss_int (- x) = - gauss_int x.
Proof.
  pose (k := fun y => gauss_int y + gauss_int (- y)).
  pose (k' := fun y => gauss y + gauss (- y) * -1).
  assert (Hz : forall c, k' c = 0) by (intro c; unfold k'; rewrite gauss_even; ring).
  assert (H0 : k 0 = 0) by (unfold k; rewrite Ropp_0, gauss_int_0; ring).
  assert (Hk : k x = 0).
  { destruct (Rle_dec 0 x) as [Hx | Hx].
    - rewrite <- H0. symmetry.
      apply (deriv_zero_const k k'); auto. intros; apply gauss_int_opp_deriv.
    - rewrite <- H0.
      apply (deriv_zero_const k k'); auto; [ intros; apply gauss_int_opp_deriv | lra ]. }
  unfold k in Hk. lra.
Qed.

Lemma gauss_int_incr x y : x < y -> gauss_int x < gauss_int y.
Proof.
  intro Hxy. apply (deriv_pos_incr gauss_int gauss); auto.
  - intros; apply gauss_int_deriv.
  - intros; apply gauss_pos.
Qed.

Lemma gauss_int_mono x y : x <= y -> gauss_int x <= gauss_int y.
Proof.
  intros [H | ->]; [ left; now apply gauss_int_incr | right; reflexivity ].
Qed.

(** The integrand is dominated by an exponential: e^(-s^2/2) <= e^(1/2 - s). *)
Lemma gauss_le_exp s : gauss s <= exp (/ 2 - s).
Proof.
  unfold gauss.
  assert (H : - (s * s) / 2 <= / 2 - s)
    by (pose proof (pow2_ge_0 (s - 1)); nra).
  destruct H as [H | ->]; [ left; now apply exp_increasing | right; reflexivity ].
Qed.

Lemma gauss_int_tail y z :
  y <= z -> gauss_int z - gauss_int y <= exp (/ 2 - y) - exp (/ 2 - z).
Proof.
  intro Hyz.
  pose (D := fun s => - exp (/ 2 - s) - gauss_int s).
  pose (D' := fun s => - (exp (/ 2 - s) * (0 - 1)) - gauss s).
  assert (H : D y <= D z).
  { apply (deriv_nonneg_nondecr D D'); auto.
    - intros c _. unfold D, D'.
      apply derivable_pt_lim_minus; [ | apply gauss_int_deriv ].
      apply derivable_pt_lim_opp.
      apply (derivable_pt_lim_comp (fun s => / 2 - s) exp);
        [ | apply derivable_pt_lim_exp ].
      apply (derivable_pt_lim_minus (fun _ => / 2) id);
        [ apply derivable_pt_lim_const | apply derivable_pt_lim_id ].
    - intros c _. unfold D'. pose proof (gauss_le_exp c). lra. }
  unfold D in H. lra.
Qed.

(** The integral of [gauss] over the half line, as the limit of the bounded
    increasing sequence of its integrals over [[0, n]]. *)
Definition gauss_seq (n : nat) : R := gauss_int (INR n).

Lemma gauss_seq_growing : Un_growing gauss_seq.
Proof.
  intro n. unfold gauss_seq. apply gauss_int_mono. rewrite S_INR. lra.
Qed.

Lemma gauss_int_le_sqrt_e x : gauss_int x <= exp (/ 2).
Proof.
  destruct (Rle_dec 0 x) as [Hx | Hx].
  - pose proof (gauss_int_tail 0 x Hx) as H.
    rewrite gauss_int_0 in H. replace (/ 2 - 0) with (/ 2) in H by lra.
    pose proof (exp_pos (/ 2 - x)). lra.
  - pose proof (gauss_int_mono x 0 ltac:(lra)) as H. rewrite gauss_int_0 in H.
    pose proof (exp_pos (/ 2)). lra.
Qed.

Lemma gauss_seq_bounded : has_ub gauss_seq.
Proof.
  exists (exp (/ 2)). intros y [n ->]. apply gauss_int_le_sqrt_e.
Qed.

Definition half_mass : R :=
  proj1_sig (growing_cv gauss_seq gauss_seq_growing gauss_seq_bounded).

Lemma half_mass_cv : Un_cv gauss_seq half_mass.
Proof.
  unfold half_mass.
  destruct (growing_cv gauss_seq gauss_seq_growing gauss_seq_bounded) as [l Hl].
  exact Hl.
Qed.

Lemma nat_above (x : R) : exists n : nat, x <= INR n.
Proof.
  destruct (Rle_dec x 0) as [Hx | Hx].
  - exists 0%nat. simpl. exact Hx.
  - destruct (archimed x) as [Hup _].
    exists (Z.to_nat (up x)).
    rewrite INR_IZR_INZ, Z2Nat.id; [ lra | ].
    apply le_IZR. lra.
Qed.

Lemma gauss_int_lt_half_mass x : gauss_int x < half_mass.
Proof.
  destruct (nat_above (x + 1)) as [n Hn].
  apply Rlt_le_trans with (gauss_int (x + 1)); [ apply gauss_int_incr; lra | ].
  apply Rle_trans with (gauss_seq n); [ now apply gauss_int_mono | ].
  apply growing_ineq; [ apply gauss_seq_growing | apply half_mass_cv ].
Qed.

Lemma half_mass_pos : 0 < half_mass.
Proof. rewrite <- gauss_int_0. apply gauss_int_lt_half_mass. Qed.

Lemma half_mass_tail y : half_mass - gauss_int y <= exp (/ 2 - y).
Proof.
  assert (Hn : forall n, gauss_seq n <= gauss_int y + exp (/ 2 - y)).
  { intro n. unfold gauss_seq.
    destruct (Rle_dec y (INR n)) as [Hy | Hy].
    - pose proof (gauss_int_tail y (INR n) Hy). pose proof (exp_pos (/ 2 - INR n)). lra.
    - pose proof (gauss_int_mono (INR n) y ltac:(lra)). pose proof (exp_pos (/ 2 - y)). lra. }
  assert (H : half_mass <= gauss_int y + exp (/ 2 - y)).
  { apply (@Rle_cv_lim gauss_seq (fun _ => gauss_int y + exp (/ 2 - y))).
    - exact Hn.
    - apply half_mass_cv.
    - intros eps Heps. exists 0%nat. intros n _.
      unfold Rdist. rewrite Rminus_diag, Rabs_R0. exact Heps. }
  lra.
Qed.

(** *** The Gaussian integral

    The total mass of [gauss] is the square root of 2 pi.  With [I t] the
    integral of [gauss] over [[0, t]] and [Aux t] the integral over
    [[0, 1]] of [aux t x = e^(-t^2 (1 + x^2) / 2) / (1 + x^2)], the function
    [I t ^ 2 + 2 Aux t] has derivative zero, is pi/2 at [t = 0], and
    [Aux t] vanishes at infinity. *)

(** The integral of a continuous function is the increment of any of its
    antiderivatives. *)
Lemma RiemannInt_antiderivative (f F : R -> R) (a b : R)
    (pr : Riemann_integrable f a b) :
  a <= b ->
  (forall x, a <= x <= b -> continuity_pt f x) ->
  (forall x, a <= x <= b -> derivable_pt_lim F x (f x)) ->
  RiemannInt pr = F b - F a.
Proof.
  intros h C0 HF.
  pose (P := primitive h (FTC_P1 h C0)).
  assert (HP : forall x, a <= x <= b -> derivable_pt_lim P x (f x))
    by (intros x Hx; apply RiemannInt_P28; exact Hx).
  assert (Hc : P a - F a = P b - F b).
  { apply (deriv_zero_const (fun x => P x - F x) (fun x => f x - f x)); auto.
    - intros c Hc. apply derivable_pt_lim_minus; [ now apply HP | now apply HF ].
    - intros; ring. }
  assert (Pa : P a = 0).
  { unfold P, primitive.
    destruct (Rle_dec a a) as [r | n]; [ | exfalso; apply n; lra ].
    destruct (Rle_dec a b) as [r0 | n0]; [ | exfalso; apply n0; lra ].
    apply RiemannInt_P9. }
  assert (Pb : P b = RiemannInt pr).
  { unfold P, primitive.
    destruct (Rle_dec a b) as [r | n]; [ | exfalso; apply n; lra ].
    destruct (Rle_dec b b) as [r0 | n0]; [ | exfalso; apply n0; lra ].
    apply RiemannInt_P5. }
  lra.
Qed.

(** Lipschitz bound from a bound on the derivative. *)
Lemma lipschitz_of_deriv (f f' : R -> R) (lo hi B : R) :
  (forall c, lo <= c <= hi -> derivable_pt_lim f c (f' c)) ->
  (forall c, lo <= c <= hi -> Rabs (f' c) <= B) ->
  forall x y, lo <= x <= hi -> lo <= y <= hi -> Rabs (f y - f x) <= B * Rabs (y - x).
Proof.
  intros Hd Hb.
  assert (Hxy : forall x y, lo <= x <= hi -> lo <= y <= hi -> x < y ->
                 Rabs (f y - f x) <= B * Rabs (y - x)).
  { intros x y Hx Hy Hlt.
    destruct (MVT_cor2 f f' x y Hlt) as [c [Hc Hin]].
    - intros c Hc. apply Hd. lra.
    - rewrite Hc, Rabs_mult. apply Rmult_le_compat_r; [ apply Rabs_pos | ].
      apply Hb. lra. }
  intros x y Hx Hy.
  destruct (Rtotal_order x y) as [Hlt | [-> | Hgt]].
  - now apply Hxy.
  - rewrite !Rminus_diag, Rabs_R0. lra.
  - rewrite (Rabs_minus_sym (f y)), (Rabs_minus_sym y). now apply Hxy.
Qed.

Lemma Rabs_le_inv (x a : R) : Rabs x <= a -> - a <= x <= a.
Proof.
  intro H. pose proof (Rle_abs x) as H1. pose proof (Rle_abs (- x)) as H2.
  rewrite Rabs_Ropp in H2. lra.
Qed.

(** The integrand of the auxiliary integral, and its first two derivatives
    in [t]. *)
Definition aux (t x : R) : R := exp (- (t * t * (1 + x * x)) / 2) / (1 + x * x).
Definition aux' (t x : R) : R := - t * exp (- (t * t * (1 + x * x)) / 2).
Definition aux'' (t x : R) : R :=
  (t * t * (1 + x * x) - 1) * exp (- (t * t * (1 + x * x)) / 2).

Lemma exp_quad_deriv (c s : R) :
  derivable_pt_lim (fun s => exp (- (s * s * c) / 2)) s
    (- (s * c) * exp (- (s * s * c) / 2)).
Proof.
  pose (u := fun s : R => - (s * s * c) / 2).
  change (derivable_pt_lim (comp exp u) s (- (s * c) * exp (u s))).
  replace (- (s * c) * exp (u s)) with (exp (u s) * (- (s * c))) by ring.
  apply derivable_pt_lim_comp; [ | apply derivable_pt_lim_exp ].
  unfold u.
  replace (- (s * c)) with (- ((1 * s + s * 1) * c) * / 2) by lra.
  apply (derivable_pt_lim_scal_right (fun s => - (s * s * c))).
  apply (derivable_pt_lim_opp (fun s => s * s * c)).
  apply (derivable_pt_lim_scal_right (fun s => s * s)).
  apply (derivable_pt_lim_mult id id); apply derivable_pt_lim_id.
Qed.

Lemma one_plus_sq_pos x : 0 < 1 + x * x.
Proof. nra. Qed.

Lemma aux_deriv (x t : R) : derivable_pt_lim (fun s => aux s x) t (aux' t x).
Proof.
  unfold aux, aux', Rdiv at 1.
  pose proof (one_plus_sq_pos x) as Hc.
  replace (- t * exp (- (t * t * (1 + x * x)) / 2))
    with (- (t * (1 + x * x)) * exp (- (t * t * (1 + x * x)) / 2) * / (1 + x * x))
    by (field; lra).
  apply (derivable_pt_lim_scal_right (fun s => exp (- (s * s * (1 + x * x)) / 2))).
  apply exp_quad_deriv.
Qed.

Lemma aux'_deriv (x t : R) : derivable_pt_lim (fun s => aux' s x) t (aux'' t x).
Proof.
  unfold aux', aux''.
  replace ((t * t * (1 + x * x) - 1) * exp (- (t * t * (1 + x * x)) / 2))
    with (- 1 * exp (- (t * t * (1 + x * x)) / 2)
          + - t * (- (t * (1 + x * x)) * exp (- (t * t * (1 + x * x)) / 2))) by ring.
  apply (derivable_pt_lim_mult (fun s => - s) (fun s => exp (- (s * s * (1 + x * x)) / 2))).
  - apply (derivable_pt_lim_opp id), derivable_pt_lim_id.
  - apply exp_quad_deriv.
Qed.

Lemma exp_nonpos_le_1 u : u <= 0 -> exp u <= 1.
Proof.
  intros [H | ->]; [ left; rewrite <- exp_0; now apply exp_increasing | rewrite exp_0; lra ].
Qed.

Lemma aux''_bound (t x : R) :
  0 <= x <= 1 -> Rabs (aux'' t x) <= 2 * (t * t) + 1.
Proof.
  intros Hx. unfold aux''.
  assert (Ht : 0 <= t * t) by nra.
  assert (Hx2 : 0 <= x * x <= 1) by nra.
  assert (Hq : 0 <= t * t * (1 + x * x) <= 2 * (t * t)) by nra.
  set (Q := t * t * (1 + x * x)) in *.
  assert (HE : 0 < exp (- Q / 2) <= 1).
  { split; [ apply exp_pos | apply exp_nonpos_le_1 ]. lra. }
  set (E := exp (- Q / 2)) in *.
  apply Rabs_le. split; nra.
Qed.

Lemma aux_continuity (t x : R) : continuity_pt (aux t) x.
Proof.
  change (continuity_pt (fun y => aux t y) x). unfold aux. reg.
  pose proof (one_plus_sq_pos x). lra.
Qed.

Lemma aux'_continuity (t x : R) : continuity_pt (aux' t) x.
Proof. change (continuity_pt (fun y => aux' t y) x). unfold aux'. reg. Qed.

Lemma aux_integrable (t : R) : Riemann_integrable (aux t) 0 1.
Proof.
  apply continuity_implies_RiemannInt; [ lra | intros; apply aux_continuity ].
Qed.

Lemma aux'_integrable (t : R) : Riemann_integrable (aux' t) 0 1.
Proof.
  apply continuity_implies_RiemannInt; [ lra | intros; apply aux'_continuity ].
Qed.

Definition Aux (t : R) : R := RiemannInt (aux_integrable t).
Definition Aux' (t : R) : R := RiemannInt (aux'_integrable t).

Definition taylor_bound (t : R) : R := 2 * ((Rabs t + 1) * (Rabs t + 1)) + 1.

Lemma taylor_bound_pos t : 0 < taylor_bound t.
Proof. unfold taylor_bound. pose proof (Rabs_pos t). nra. Qed.

Lemma aux'_lipschitz (t x s1 s2 : R) :
  0 <= x <= 1 -> t - 1 <= s1 <= t + 1 -> t - 1 <= s2 <= t + 1 ->
  Rabs (aux' s2 x - aux' s1 x) <= taylor_bound t * Rabs (s2 - s1).
Proof.
  intros Hx H1 H2.
  apply (lipschitz_of_deriv (fun s => aux' s x) (fun s => aux'' s x) (t - 1) (t + 1));
    auto.
  - intros c _. apply aux'_deriv.
  - intros c Hc. eapply Rle_trans; [ now apply aux''_bound | ].
    unfold taylor_bound.
    assert (Rabs c <= Rabs t + 1).
    { apply Rabs_le. pose proof (Rle_abs t). pose proof (Rle_abs (- t)).
      rewrite Rabs_Ropp in *. lra. }
    pose proof (Rabs_pos c). pose proof (Rabs_pos t).
    assert (c * c = Rabs c * Rabs c) by (rewrite <- Rabs_mult; symmetry; apply Rabs_pos_eq; nra).
    nra.
Qed.

Lemma aux_taylor (t k x : R) :
  0 <= x <= 1 -> Rabs k <= 1 ->
  Rabs (aux (t + k) x - aux t x - k * aux' t x) <= taylor_bound t * (k * k).
Proof.
  intros Hx Hk.
  pose (psi := fun s => aux s x - s * aux' t x).
  pose (psi' := fun s => aux' s x - 1 * aux' t x).
  assert (Hk' : - 1 <= k <= 1) by (apply Rabs_le_inv; exact Hk).
  pose proof (Rabs_pos k) as Hk0.
  pose proof (Rle_abs k) as Hka. pose proof (Rle_abs (- k)) as Hkb.
  rewrite Rabs_Ropp in Hkb.
  assert (H : Rabs (psi (t + k) - psi t)
              <= taylor_bound t * Rabs k * Rabs (t + k - t)).
  { apply (lipschitz_of_deriv psi psi' (t - Rabs k) (t + Rabs k)).
    - intros c _. unfold psi, psi'.
      apply derivable_pt_lim_minus; [ apply aux_deriv | ].
      apply (derivable_pt_lim_scal_right id), derivable_pt_lim_id.
    - intros c Hc. unfold psi'. rewrite Rmult_1_l.
      eapply Rle_trans; [ apply (aux'_lipschitz t x t c); lra | ].
      apply Rmult_le_compat_l; [ left; apply taylor_bound_pos | ].
      apply Rabs_le. lra.
    - lra.
    - lra. }
  replace (t + k - t) with k in H by ring.
  unfold psi in H.
  replace (aux (t + k) x - (t + k) * aux' t x - (aux t x - t * aux' t x))
    with (aux (t + k) x - aux t x - k * aux' t x) in H by ring.
  replace (k * k) with (Rabs k * Rabs k)
    by (rewrite <- Rabs_mult; apply Rabs_pos_eq; nra).
  lra.
Qed.

(** Differentiation under the integral sign, for this integrand. *)
Lemma Aux_deriv (t : R) : derivable_pt_lim Aux t (Aux' t).
Proof.
  intros eps Heps.
  pose proof (taylor_bound_pos t) as HB.
  assert (Hd : 0 < Rmin 1 (eps / (2 * taylor_bound t))).
  { apply Rmin_pos; [ lra | apply Rdiv_lt_0_compat; lra ]. }
  exists (mkposreal _ Hd). simpl. intros k Hk0 Hk.
  assert (Hk1 : Rabs k <= 1) by (left; eapply Rlt_le_trans; [ exact Hk | apply Rmin_l ]).
  assert (Hk2 : Rabs k < eps / (2 * taylor_bound t))
    by (eapply Rlt_le_trans; [ exact Hk | apply Rmin_r ]).
  (* the remainder as one integral *)
  pose (w1 := fun x => aux (t + k) x + -1 * aux t x).
  pose (w := fun x => w1 x + - k * aux' t x).
  assert (I1 : Riemann_integrable w1 0 1)
    by (apply RiemannInt_P10; apply aux_integrable).
  assert (Iw : Riemann_integrable w 0 1)
    by (apply RiemannInt_P10; [ exact I1 | apply aux'_integrable ]).
  assert (Ew : RiemannInt Iw = Aux (t + k) - Aux t - k * Aux' t).
  { unfold w. rewrite (RiemannInt_P13 I1 (aux'_integrable t) Iw).
    unfold w1. rewrite (RiemannInt_P13 (aux_integrable (t + k)) (aux_integrable t) I1).
    unfold Aux, Aux'. ring. }
  assert (Bw : - (taylor_bound t * (k * k)) * (1 - 0) <= RiemannInt Iw
               <= taylor_bound t * (k * k) * (1 - 0)).
  { apply RiemannInt_const_bound; [ lra | ].
    intros x Hx. unfold w, w1.
    pose proof (aux_taylor t k x ltac:(lra) Hk1) as Hb.
    apply Rabs_le_inv in Hb. lra. }
  rewrite Ew in Bw.
  replace ((Aux (t + k) - Aux t) / k - Aux' t)
    with ((Aux (t + k) - Aux t - k * Aux' t) / k) by (field; exact Hk0).
  unfold Rdiv. rewrite Rabs_mult, Rabs_inv.
  assert (Hak : 0 < Rabs k) by (apply Rabs_pos_lt; exact Hk0).
  assert (Hkk : k * k = Rabs k * Rabs k)
    by (rewrite <- Rabs_mult; symmetry; apply Rabs_pos_eq; nra).
  assert (Hnum : Rabs (Aux (t + k) - Aux t - k * Aux' t) <= taylor_bound t * (Rabs k * Rabs k)).
  { rewrite <- Hkk. apply Rabs_le. lra. }
  apply Rle_lt_trans with (taylor_bound t * Rabs k).
  - apply Rmult_le_reg_r with (Rabs k); [ exact Hak | ].
    rewrite Rmult_assoc, Rinv_l by lra. lra.
  - apply Rmult_lt_reg_r with (/ taylor_bound t); [ now apply Rinv_0_lt_compat | ].
    replace (taylor_bound t * Rabs k * / taylor_bound t) with (Rabs k) by (field; lra).
    eapply Rlt_trans; [ exact Hk2 | ].
    unfold Rdiv. rewrite Rinv_mult.
    assert (0 < / taylor_bound t) by now apply Rinv_0_lt_compat.
    nra.
Qed.

Lemma gauss_split (t x : R) :
  exp (- (t * t * (1 + x * x)) / 2) = gauss t * gauss (t * x).
Proof. unfold gauss. rewrite <- exp_plus. f_equal. field. Qed.

(** The substitution u = t x: the integral of [aux' t] over [0, 1]. *)
Lemma Aux'_value (t : R) : Aux' t = - (gauss t * gauss_int t).
Proof.
  unfold Aux'.
  rewrite (RiemannInt_antiderivative (aux' t) (fun x => - gauss t * gauss_int (t * x))).
  - rewrite Rmult_1_r, Rmult_0_r, gauss_int_0. ring.
  - lra.
  - intros; apply aux'_continuity.
  - intros x _. unfold aux'. rewrite gauss_split.
    replace (- t * (gauss t * gauss (t * x)))
      with (- gauss t * (gauss (t * x) * (t * 1))) by ring.
    apply (derivable_pt_lim_scal (fun y => gauss_int (t * y))).
    apply (derivable_pt_lim_comp (fun y => t * y) gauss_int);
      [ | apply gauss_int_deriv ].
    apply (derivable_pt_lim_scal id), derivable_pt_lim_id.
Qed.

Lemma Aux_0 : Aux 0 = PI / 4.
Proof.
  unfold Aux.
  rewrite (RiemannInt_antiderivative (aux 0) atan).
  - rewrite atan_1, atan_0. ring.
  - lra.
  - intros; apply aux_continuity.
  - intros x _. unfold aux.
    replace (exp (- (0 * 0 * (1 + x * x)) / 2) / (1 + x * x)) with (/ (1 + x ^ 2)).
    + apply derivable_pt_lim_atan.
    + replace (- (0 * 0 * (1 + x * x)) / 2) with 0 by field.
      rewrite exp_0. field. pose proof (one_plus_sq_pos x). lra.
Qed.

(** [gauss_int t ^ 2 + 2 Aux t] does not depend on [t]. *)
Lemma gauss_int_sqr (t : R) : gauss_int t * gauss_int t + 2 * Aux t = PI / 2.
Proof.
  pose (F := fun s => gauss_int s * gauss_int s + 2 * Aux s).
  pose (F' := fun s => gauss s * gauss_int s + gauss_int s * gauss s + 2 * Aux' s).
  assert (HF : forall s, derivable_pt_lim F s (F' s)).
  { intro s. unfold F, F'. apply derivable_pt_lim_plus.
    - apply (derivable_pt_lim_mult gauss_int gauss_int); apply gauss_int_deriv.
    - apply (derivable_pt_lim_scal Aux), Aux_deriv. }
  assert (HZ : forall s, F' s = 0) by (intro s; unfold F'; rewrite Aux'_value; ring).
  assert (E : F t = F 0).
  { destruct (Rle_dec 0 t) as [Ht | Ht].
    - symmetry. apply (deriv_zero_const F F'); auto.
    - apply (deriv_zero_const F F'); auto. lra. }
  unfold F in E. rewrite gauss_int_0, Aux_0 in E. lra.
Qed.

Lemma Aux_bounds (t : R) : 0 <= Aux t <= gauss t.
Proof.
  unfold Aux.
  pose proof (@RiemannInt_const_bound (aux t) 0 1 0 (gauss t) (aux_integrable t)) as H.
  rewrite Rmult_0_l, Rminus_0_r, Rmult_1_r in H. apply H; [ lra | ].
  intros x Hx. unfold aux. rewrite gauss_split.
  pose proof (one_plus_sq_pos x) as Hc.
  pose proof (gauss_pos t) as Hg. pose proof (gauss_pos (t * x)) as Hgx.
  assert (Hle : gauss (t * x) <= 1) by (unfold gauss; apply exp_nonpos_le_1; nra).
  split.
  - left. apply Rdiv_lt_0_compat; [ now apply Rmult_lt_0_compat | exact Hc ].
  - apply Rmult_le_reg_r with (1 + x * x); [ exact Hc | ].
    replace (gauss t * gauss (t * x) / (1 + x * x) * (1 + x * x))
      with (gauss t * gauss (t * x)) by (field; lra).
    nra.
Qed.

Lemma exp_tail_small (c d : R) :
  0 <= c -> 0 < d -> exists y, 0 <= y /\ c * exp (/ 2 - y) < d.
Proof.
  intros Hc Hd.
  assert (Hs : 0 < exp (/ 2)) by apply exp_pos.
  exists (c * exp (/ 2) / d + 1).
  assert (Hq : 0 <= c * exp (/ 2) / d).
  { apply Rmult_le_pos; [ nra | left; now apply Rinv_0_lt_compat ]. }
  split; [ lra | ].
  set (y := c * exp (/ 2) / d + 1).
  assert (Hy : 0 < y) by (unfold y; lra).
  assert (He : y < exp y) by (pose proof (exp_ineq1 y ltac:(lra)); lra).
  replace (exp (/ 2 - y)) with (exp (/ 2) / exp y)
    by (unfold Rminus; rewrite exp_plus, exp_Ropp; reflexivity).
  assert (Hey : 0 < exp y) by apply exp_pos.
  apply Rmult_lt_reg_r with (exp y); [ exact Hey | ].
  replace (c * (exp (/ 2) / exp y) * exp y) with (c * exp (/ 2)) by (field; lra).
  assert (Hcd : c * exp (/ 2) < d * y).
  { unfold y. replace (d * (c * exp (/ 2) / d + 1)) with (c * exp (/ 2) + d) by (field; lra).
    lra. }
  nra.
Qed.

(** The Gaussian integral: the square of the integral of e^(-t^2/2) over
    the half line is pi/2. *)
Lemma half_mass_sqr : half_mass * half_mass = PI / 2.
Proof.
  pose proof half_mass_pos as HM.
  assert (Hb : forall y, 0 <= y ->
             Rabs (half_mass * half_mass - PI / 2) <= (2 * half_mass + 2) * exp (/ 2 - y)).
  { intros y Hy.
    pose proof (gauss_int_sqr y) as E.
    pose proof (Aux_bounds y) as [A0 A1].
    pose proof (gauss_le_exp y) as G.
    pose proof (half_mass_tail y) as Tl.
    pose proof (gauss_int_lt_half_mass y) as Lt.
    pose proof (gauss_int_mono 0 y Hy) as I0. rewrite gauss_int_0 in I0.
    replace (half_mass * half_mass - PI / 2)
      with ((half_mass - gauss_int y) * (half_mass + gauss_int y) - 2 * Aux y) by lra.
    assert (0 <= (half_mass - gauss_int y) * (half_mass + gauss_int y)
            <= exp (/ 2 - y) * (2 * half_mass)).
    { split; [ apply Rmult_le_pos; lra | ].
      apply Rmult_le_compat; lra. }
    apply Rabs_le. split; nra. }
  destruct (Req_dec (half_mass * half_mass) (PI / 2)) as [E | N]; [ exact E | exfalso ].
  assert (Hd : 0 < Rabs (half_mass * half_mass - PI / 2))
    by (apply Rabs_pos_lt; lra).
  destruct (exp_tail_small (2 * half_mass + 2) _ ltac:(lra) Hd) as [y [Hy Hlt]].
  specialize (Hb y Hy). lra.
Qed.

(** Hence the total mass of [gauss] is the square root of 2 pi. *)
Lemma total_mass : 2 * half_mass = sqrt (2 * PI).
Proof.
  symmetry. apply sqrt_lem_1.
  - pose proof PI_RGT_0. lra.
  - pose proof half_mass_pos. lra.
  - pose proof half_mass_sqr. lra.
Qed.

(** The two functions in terms of the half mass. *)
Lemma sqrt_2pi_pos : 0 < sqrt (2 * PI).
Proof. rewrite <- total_mass. pose proof half_mass_pos. lra. Qed.

Lemma pdf_mass (x : R) : pdf x = gauss x / (2 * half_mass).
Proof. unfold pdf. now rewrite total_mass. Qed.

Lemma cdf_mass (x : R) : cdf x = (half_mass + gauss_int x) / (2 * half_mass).
Proof.
  unfold cdf. rewrite <- total_mass. pose proof half_mass_pos. field. lra.
Qed.

Lemma pdf_pos x : 0 < pdf x.
Proof.
  unfold pdf. apply Rdiv_lt_0_compat; [ apply gauss_pos | apply sqrt_2pi_pos ].
Qed.


Lemma cdf_deriv x : derivable_pt_lim cdf x (pdf x).
Proof.
  unfold cdf, pdf, Rdiv.
  replace (gauss x * / sqrt (2 * PI)) with (0 + gauss x * / sqrt (2 * PI)) by ring.
  apply (derivable_pt_lim_plus (fun _ => / 2)); [ apply derivable_pt_lim_const | ].
  apply (derivable_pt_lim_scal_right gauss_int), gauss_int_deriv.
Qed.


Lemma cdf_symmetry x : cdf x + cdf (- x) = 1.
Proof.
  unfold cdf. rewrite gauss_int_odd.
  pose proof sqrt_2pi_pos. field. lra.
Qed.

Lemma cdf_pos x : 0 < cdf x.
Proof.
  rewrite cdf_mass. pose proof half_mass_pos.
  apply Rdiv_lt_0_compat; [ | lra ].
  pose proof (gauss_int_lt_half_mass (- x)) as H1. rewrite gauss_int_odd in H1. lra.
Qed.

Lemma cdf_lt_1 x : cdf x < 1.
Proof.
  pose proof (cdf_symmetry x). pose proof (cdf_pos (- x)). lra.
Qed.

Lemma cdf_incr x y : x < y -> cdf x < cdf y.
Proof.
  intro Hxy. apply (deriv_pos_incr cdf pdf); auto.
  - intros; apply cdf_deriv.
  - intros; apply pdf_pos.
Qed.

Lemma cdf_0 : cdf 0 = / 2.
Proof. unfold cdf. rewrite gauss_int_0. unfold Rdiv. ring. Qed.









End Gauss.

(** ** The pricers over the reals *)

(** Reals idealise floats: there is no rounding, no overflow and no NaN,
    and [ln], [sqrt] and the quotient mean what the code computes only on
    their domains (a positive argument, a non-zero divisor), which the
    statements about this reading assume: [S], [K], [T], [sigma] positive. *)
Local Open Scope R_scope.

#[export] Instance RealArith : Arith R := {|
  num_add := Rplus; num_sub := Rminus; num_mul := Rmult; num_div := Rdiv;
  num_neg := Ropp; num_sqr := fun x => x * x; num_two := 2;
  np_log := ln; np_exp := exp; np_sqrt := R_sqrt.sqrt; norm_cdf := Gauss.cdf |}.

Module Ideal.
Import Gauss.
Local Open Scope R_scope.
#[local] Abbreviation sqrt := R_sqrt.sqrt.

(** The Black-Scholes value in reduced variables: [a] and [b] are the
    discounted spot and strike, [x] the log-moneyness of the forward and
    [v] the total volatility [sigma * sqrt T]. *)
Definition black_call (a b x v : R) : R :=
  a * cdf (x / v + v / 2) - b * cdf (x / v - v / 2).

Definition log_forward (S K T r q : R) : R := ln (S / K) + (r - q) * T.

Section Reduced.
Variables S K T r q sigma : R.
Hypotheses (HS : 0 < S) (HK : 0 < K) (HT : 0 < T) (Hsig : 0 < sigma).

Lemma total_vol_pos : 0 < sigma * sqrt T.
Proof. apply Rmult_lt_0_compat; [ exact Hsig | now apply sqrt_lt_R0 ]. Qed.

Lemma d1_reduced :
  (ln (S / K) + (r - q + sigma * sigma / 2) * T) / (sigma * sqrt T)
  = log_forward S K T r q / (sigma * sqrt T) + sigma * sqrt T / 2.
Proof.
  pose proof total_vol_pos as Hv.
  assert (Hs : 0 < sqrt T) by now apply sqrt_lt_R0.
  assert (HTs : T = sqrt T * sqrt T) by (symmetry; apply sqrt_sqrt; lra).
  unfold log_forward.
  remember (sqrt T) as s eqn:Es. rewrite HTs.
  field. lra.
Qed.

Lemma bs_call_div_reduced :
  bs_call_div S K T r q sigma
  = black_call (S * exp (- q * T)) (K * exp (- r * T))
      (log_forward S K T r q) (sigma * sqrt T).
Proof.
  unfold bs_call_div, black_call. simpl.
  rewrite d1_reduced. do 3 f_equal. lra.
Qed.


Lemma discount_ratio :
  S * exp (- q * T) = K * exp (- r * T) * exp (log_forward S K T r q).
Proof.
  unfold log_forward.
  rewrite exp_plus, exp_ln by (apply Rdiv_lt_0_compat; lra).
  replace (K * exp (- r * T) * (S / K * exp ((r - q) * T)))
    with (S * (exp (- r * T) * exp ((r - q) * T))) by (field; lra).
  rewrite <- exp_plus. do 2 f_equal. ring.
Qed.

End Reduced.

Section BlackFormula.
Variables a b x : R.
Hypotheses (Hb : 0 < b) (Hab : a = b * exp x).

Lemma pdf_shift v : v <> 0 -> exp x * pdf (x / v + v / 2) = pdf (x / v - v / 2).
Proof.
  intro Hv. unfold pdf, gauss, Rdiv.
  rewrite <- Rmult_assoc, <- exp_plus. do 2 f_equal. field. exact Hv.
Qed.



Lemma d_plus_deriv v :
  v <> 0 -> derivable_pt_lim (fun w => x / w + w / 2) v (- x / (v * v) + / 2).
Proof.
  intro Hv.
  apply derivable_pt_lim_plus.
  - replace (- x / (v * v)) with ((0 * id v - 1 * fct_cte x v) / Rsqr (id v))
      by (unfold id, fct_cte, Rsqr; field; exact Hv).
    apply (derivable_pt_lim_div (fct_cte x) id);
      [ apply derivable_pt_lim_const | apply derivable_pt_lim_id | exact Hv ].
  - replace (/ 2) with (1 * / 2) by ring.
    apply (derivable_pt_lim_scal_right id), derivable_pt_lim_id.
Qed.

Lemma d_minus_deriv v :
  v <> 0 -> derivable_pt_lim (fun w => x / w - w / 2) v (- x / (v * v) - / 2).
Proof.
  intro Hv.
  apply derivable_pt_lim_minus.
  - replace (- x / (v * v)) with ((0 * id v - 1 * fct_cte x v) / Rsqr (id v))
      by (unfold id, fct_cte, Rsqr; field; exact Hv).
    apply (derivable_pt_lim_div (fct_cte x) id);
      [ apply derivable_pt_lim_const | apply derivable_pt_lim_id | exact Hv ].
  - replace (/ 2) with (1 * / 2) by ring.
    apply (derivable_pt_lim_scal_right id), derivable_pt_lim_id.
Qed.

(** Vega in reduced variables: the derivative of the call value in the
    total volatility is [a * pdf d1], the two [cdf] terms' inner derivatives
    cancelling through [pdf_shift]. *)
Lemma black_call_deriv v :
  v <> 0 -> derivable_pt_lim (black_call a b x) v (a * pdf (x / v + v / 2)).
Proof.
  intro Hv. unfold black_call.
  pose proof (pdf_shift v Hv) as Hs.
  replace (a * pdf (x / v + v / 2))
    with (a * (pdf (x / v + v / 2) * (- x / (v * v) + / 2))
          - b * (pdf (x / v - v / 2) * (- x / (v * v) - / 2)))
    by (rewrite <- Hs, Hab; field; exact Hv).
  apply derivable_pt_lim_minus.
  - apply (derivable_pt_lim_scal (fun w => cdf (x / w + w / 2))).
    apply (derivable_pt_lim_comp (fun w => x / w + w / 2) cdf);
      [ now apply d_plus_deriv | apply cdf_deriv ].
  - apply (derivable_pt_lim_scal (fun w => cdf (x / w - w / 2))).
    apply (derivable_pt_lim_comp (fun w => x / w - w / 2) cdf);
      [ now apply d_minus_deriv | apply cdf_deriv ].
Qed.

Lemma black_call_incr v1 v2 :
  0 < v1 -> v1 < v2 -> black_call a b x v1 < black_call a b x v2.
Proof.
  intros H1 H12.
  apply (deriv_pos_incr (black_call a b x) (fun v => a * pdf (x / v + v / 2))); auto.
  - intros c Hc. apply black_call_deriv. lra.
  - intros c _. apply Rmult_lt_0_compat; [ | apply pdf_pos ].
    rewrite Hab. apply Rmult_lt_0_compat; [ exact Hb | apply exp_pos ].
Qed.

End BlackFormula.
End Ideal.

(** ** The pricers over rounded reals *)

(** Binary64 arithmetic as real arithmetic followed by a rounding: every
    operation computes on the reals and rounds the result.  A [Machine]
    holds what such an arithmetic is made of:
    - [rnd], rounding to nearest as if the exponent were unbounded;
    - [in_range], which rounded values the format holds as computed: zero
      and the normal numbers;
    - [m_log], [m_exp], [m_cdf], the library functions [np.log], [np.exp]
      and [norm.cdf] as functions on the values they receive.
    A value is an [option R]: [None] stands for every outcome this reading
    does not follow, an overflow to an infinity, a result below the normal
    range, a division by zero, the logarithm or the root of a negative
    number, and whatever is computed from one of them (infinities and NaN
    included).  So an evaluation that yields [Some c] is one in which
    binary64 stays finite and normal throughout, and [c] is its result. *)

Module Rounded.
Local Open Scope R_scope.
#[local] Abbreviation sqrt := R_sqrt.sqrt.

Record Machine : Type := {
  rnd : R -> R;
  in_range : R -> bool;
  m_log : R -> R;
  m_exp : R -> R;
  m_cdf : R -> R
}.

Section Model.
Variable M : Machine.

Definition fin (z : R) : option R := if in_range M z then Some z else None.

Definition lift2 (f : R -> R -> option R) (x y : option R) : option R :=
  match x, y with
  | Some a, Some b => f a b
  | _, _ => None
  end.

Definition lift1 (f : R -> option R) (x : option R) : option R :=
  match x with
  | Some a => f a
  | None => None
  end.

(** The operations, as [FloatArith] has them: [x**2] is the rounded
    product, [np.sqrt] the rounded root, the opposite is exact.  [np.exp]
    gives no value where the library returns zero (an underflow: the
    exponential is never zero). *)
Definition RoundedArith : Arith (option R) := {|
  num_add := lift2 (fun a b => fin (rnd M (a + b)));
  num_sub := lift2 (fun a b => fin (rnd M (a - b)));
  num_mul := lift2 (fun a b => fin (rnd M (a * b)));
  num_div := lift2 (fun a b => if Req_dec_T b 0 then None else fin (rnd M (a / b)));
  num_neg := lift1 (fun a => Some (- a));
  num_sqr := lift1 (fun a => fin (rnd M (a * a)));
  num_two := Some 2;
  np_log := lift1 (fun a => if Rlt_dec 0 a then fin (m_log M a) else None);
  np_exp := lift1 (fun a => if Req_dec_T (m_exp M a) 0 then None else fin (m_exp M a));
  np_sqrt := lift1 (fun a => if Rle_dec 0 a then fin (rnd M (sqrt a)) else None);
  norm_cdf := lift1 (fun a => Some (m_cdf M a))
|}.

End Model.

(** How accurate a machine is: [u] bounds the relative error of a rounding
    (binary64 rounds to nearest: [u = 2^-53]), [ul] and [ue] the relative
    errors of the logarithm and of the exponential, [ec] the absolute error
    of the distribution function. *)
Record Accurate (M : Machine) (u ul ue ec : R) : Prop := {
  u_small : 0 <= u <= / 8;
  ul_pos : 0 <= ul;
  ue_pos : 0 <= ue;
  ec_pos : 0 <= ec;
  rnd_err : forall z, Rabs (rnd M z - z) <= u * Rabs z;
  log_err : forall x, 0 < x -> Rabs (m_log M x - ln x) <= ul * Rabs (ln x);
  exp_err : forall x, m_exp M x <> 0 -> in_range M (m_exp M x) = true ->
                      Rabs (m_exp M x - exp x) <= ue * exp x;
  cdf_err : forall x, Rabs (m_cdf M x - Gauss.cdf x) <= ec
}.

(** [approx X a e]: if the evaluation [X] yields a value, that value is
    within [e] of the exact value [a]. *)
Definition approx (X : option R) (a e : R) : Prop :=
  forall x, X = Some x -> Rabs (x - a) <= e.

(** The error of the result of an operation, from the exact values [a],
    [b] of its operands and the errors [ea], [eb] they come with. *)
Section Bounds.
Variables u ul ue ec : R.

Definition add_bound (a ea b eb : R) : R := ea + eb + u * (Rabs (a + b) + ea + eb).
Definition sub_bound (a ea b eb : R) : R := ea + eb + u * (Rabs (a - b) + ea + eb).
Definition mul_bound (a ea b eb : R) : R :=
  (1 + u) * (Rabs a * eb + Rabs b * ea + ea * eb) + u * Rabs (a * b).
Definition div_bound (a ea b eb : R) : R :=
  (1 + u) * ((ea * b + Rabs a * eb) / (b * (b - eb))) + u * Rabs (a / b).
Definition sqrt_bound (a : R) : R := u * sqrt a.
Definition log_bound (a ea : R) : R := (1 + ul) * (2 * (ea / a)) + ul * Rabs (ln a).
Definition exp_bound (a ea : R) : R := exp a * ((1 + ue) * exp ea - 1).
Definition cdf_bound (ea : R) : R := ec + ea.

End Bounds.

(** The error of a price: the bounds above, composed along the body of
    [bs_call_div] and of [bs_put_div]. *)
Section Tolerance.
Variables u ul ue ec : R.
Variables S K T r q sigma : R.

(** The exact values of [d1] and [d2], lines 35 and 36. *)
Definition d1 : R := (ln (S / K) + (r - q + sigma * sigma / 2) * T) / (sigma * sqrt T).
Definition d2 : R := d1 - sigma * sqrt T.

Definition total_vol_bound : R := mul_bound u sigma 0 (sqrt T) (sqrt_bound u T).

Definition d1_bound : R :=
  let e_log := log_bound ul (S / K) (div_bound u S 0 K 0) in
  let e_half := div_bound u (sigma * sigma) (mul_bound u sigma 0 sigma 0) 2 0 in
  let e_drift := add_bound u (r - q) (sub_bound u r 0 q 0) (sigma * sigma / 2) e_half in
  let e_num := add_bound u (ln (S / K)) e_log ((r - q + sigma * sigma / 2) * T)
                 (mul_bound u (r - q + sigma * sigma / 2) e_drift T 0) in
  div_bound u (ln (S / K) + (r - q + sigma * sigma / 2) * T) e_num
    (sigma * sqrt T) total_vol_bound.

Definition d2_bound : R := sub_bound u d1 d1_bound (sigma * sqrt T) total_vol_bound.

(** The error of [X * np.exp(-y * T)]. *)
Definition discounted_bound (X y : R) : R :=
  mul_bound u X 0 (exp (- y * T)) (exp_bound ue (- y * T) (mul_bound u (- y) 0 T 0)).

Definition call_tolerance : R :=
  sub_bound u
    (S * exp (- q * T) * Gauss.cdf d1)
    (mul_bound u (S * exp (- q * T)) (discounted_bound S q)
       (Gauss.cdf d1) (cdf_bound ec d1_bound))
    (K * exp (- r * T) * Gauss.cdf d2)
    (mul_bound u (K * exp (- r * T)) (discounted_bound K r)
       (Gauss.cdf d2) (cdf_bound ec d2_bound)).

Definition put_tolerance : R :=
  sub_bound u
    (K * exp (- r * T) * Gauss.cdf (- d2))
    (mul_bound u (K * exp (- r * T)) (discounted_bound K r)
       (Gauss.cdf (- d2)) (cdf_bound ec d2_bound))
    (S * exp (- q * T) * Gauss.cdf (- d1))
    (mul_bound u (S * exp (- q * T)) (discounted_bound S q)
       (Gauss.cdf (- d1)) (cdf_bound ec d1_bound)).

End Tolerance.

(** A machine for examples: every operation is off by the relative error
    [2^-53], upwards; the library functions are exact. *)
Definition skewed : Machine := {|
  rnd := fun z => z * (1 + / 2 ^ 53);
  in_range := fun _ => true;
  m_log := ln; m_exp := exp; m_cdf := Gauss.cdf
|}.

End Rounded.

Local Close Scope R_scope.
Import ListNotations.
Local Open Scope string_scope.
Local Open Scope list_scope.

(** ** Python values, exceptions and effects *)

(** The exceptions that occur: an unbound global name, a call that does not
    fit its callee, and the two that [brentq] raises. *)
Inductive exn : Set :=
| NameError (name : string)
| TypeError
| ValueError
| RuntimeError.

(** What a run does besides computing: the calls it makes to a pricer
    (with its arguments) and to the root finder (with its bracket). *)
Inductive event : Set :=
| PricerCalled (name : string) (args : list float)
| SolverCalled (a b : float).

Inductive outcome (A : Type) : Type :=
| Return (a : A)
| Raise (e : exn).
Arguments Return {A} a.
Arguments Raise {A} e.

(** A run: the calls made, in order, and how it ended. *)
Definition Run (A : Type) : Type := (list event * outcome A)%type.

Definition ret {A} (a : A) : Run A := ([], Return a).
Definition raise {A} (e : exn) : Run A := ([], Raise e).
Definition tell (ev : event) : Run unit := ([ev], Return tt).
Definition bind {A B} (m : Run A) (k : A -> Run B) : Run B :=
  match m with
  | (t, Return a) => let (t', o) := k a in (t ++ t', o)
  | (t, Raise e) => (t, Raise e)
  end.

Notation "'let*' x ':=' m 'in' k" := (bind m (fun x => k))
  (at level 10, x pattern, m at level 200, k at level 200).

(** [try: m except handles: h]: the handler [h e] runs when [m] raised an
    exception [e] that the clause handles ([handles e = true]); any other
    exception goes on to the caller. *)
Definition try_except {A} (m : Run A) (handles : exn -> bool) (h : Run A) : Run A :=
  match m with
  | (t, Raise e) => if handles e then let (t', o) := h in (t ++ t', o) else (t, Raise e)
  | done => done
  end.

(** Objects bound in a namespace: functions of float arguments, and
    everything else (modules, data), which this model never calls. *)
Definition pyfun : Type := list float -> Run float.
Inductive pyobj : Type :=
| PyFunction (f : pyfun)
| PyOther.

Abbreviation namespace := (gmap string pyobj).

(** Reading a global name: [NameError] when it is bound neither in the
    module nor among the builtins (no builtin is called [bs_...]). *)
Definition load_global (G : namespace) (name : string) : Run pyobj :=
  match G !! name with
  | Some o => ret o
  | None => raise (NameError name)
  end.

Definition call (o : pyobj) (args : list float) : Run float :=
  match o with
  | PyFunction f => f args
  | PyOther => raise TypeError
  end.

(** ** Floats: the library functions the module imports *)

Record Libm : Type := {
  libm_log : float -> float;     (* [np.log] *)
  libm_exp : float -> float;     (* [np.exp] *)
  libm_cdf : float -> float      (* [norm.cdf] *)
}.

(** Python floats and numpy float64 scalars: IEEE-754 binary64, where
    division by zero and invalid operations yield infinities and NaN
    (numpy warns and goes on). *)
Definition FloatArith (L : Libm) : Arith float := {|
  num_add := PrimFloat.add; num_sub := PrimFloat.sub;
  num_mul := PrimFloat.mul; num_div := PrimFloat.div;
  num_neg := PrimFloat.opp; num_sqr := fun x => PrimFloat.mul x x;
  num_two := 2%float;
  np_log := libm_log L; np_exp := libm_exp L;
  np_sqrt := PrimFloat.sqrt; norm_cdf := libm_cdf L |}.

Record Imports : Type := {
  libm : Libm;
  (* [scipy.optimize.brentq(f, a, b)] *)
  brentq : (float -> Run float) -> float -> float -> Run float
}.

(** ** The module's namespace *)

Definition def5 (name : string) (f : float -> float -> float -> float -> float -> float)
  : pyobj :=
  PyFunction (fun args =>
    match args with
    | [a1; a2; a3; a4; a5] =>
        let* _ := tell (PricerCalled name args) in ret (f a1 a2 a3 a4 a5)
    | _ => raise TypeError
    end).

Definition def6 (name : string)
    (f : float -> float -> float -> float -> float -> float -> float) : pyobj :=
  PyFunction (fun args =>
    match args with
    | [a1; a2; a3; a4; a5; a6] =>
        let* _ := tell (PricerCalled name args) in ret (f a1 a2 a3 a4 a5 a6)
    | _ => raise TypeError
    end).

(** Names bound at module level that are no pricers: the imports, the solver
    itself, and the variables the script has assigned by the time it calls
    the solver (line 229). *)
Definition other_names : list string :=
  [ "st"; "yf"; "pd"; "np"; "timedelta"; "norm"; "brentq"; "griddata"; "go";
    "implied_volatility";
    "risk_free_rate"; "dividend_yield"; "option_type"; "y_axis_option";
    "ticker_symbol"; "min_strike_pct"; "max_strike_pct"; "ticker"; "today";
    "expirations"; "exp_dates"; "option_call_data"; "option_put_data";
    "exp_date"; "opt_chain"; "calls"; "puts"; "index"; "row"; "strike"; "bid";
    "ask"; "mid_price"; "call_options_df"; "put_options_df"; "spot_history";
    "spot_price" ].

Definition module_globals (L : Libm) : namespace :=
  <[ "bs_call_no_div" := def5 "bs_call_no_div" (@bs_call_no_div _ (FloatArith L)) ]>
  (<[ "bs_call_div" := def6 "bs_call_div" (@bs_call_div _ (FloatArith L)) ]>
  (<[ "bs_put_no_div" := def5 "bs_put_no_div" (@bs_put_no_div _ (FloatArith L)) ]>
  (<[ "bs_put_div" := def6 "bs_put_div" (@bs_put_div _ (FloatArith L)) ]>
  (foldr (fun name G => <[ name := PyOther ]> G) ∅ other_names)))).

(** ** The solver, lines 59-71 of the source *)

(** [1e-6] as Python reads it (the nearest binary64), and [5]. *)
Definition bracket_lo : float := 0x1.0c6f7a0b5ed8dp-20%float.
Definition bracket_hi : float := 5%float.

Section Solver.
Variables (I : Imports) (G : namespace).

Definition objective_function (price S K T r q : float) (sigma : float) : Run float :=
  let* bs_call_price := load_global G "bs_call_price" in
  let* value := call bs_call_price [S; K; T; r; sigma; q] in
  ret (value - price)%float.

Definition implied_volatility (price S K T r q : float) : Run float :=
  if (T <=? 0)%float || (price <=? 0)%float then      (* line 60 *)
    ret nan
  else
    let* implied_vol :=
      try_except                                        (* lines 66-69 *)
        (let* _ := tell (SolverCalled bracket_lo bracket_hi) in
         brentq I (objective_function price S K T r q) bracket_lo bracket_hi)
        (fun e => match e with ValueError | RuntimeError => true | _ => false end)
        (ret nan) in
    ret implied_vol.

(** The default [q=0] of the signature. *)
Definition implied_volatility_default_q (price S K T r : float) : Run float :=
  implied_volatility price S K T r 0%float.

End Solver.

(** ** A model of [scipy.optimize.brentq]

    The root finder is a library function, not code of the module.  The
    statements about the solver take it as the field [brentq] of [Imports];
    this model of it, after Brent's method as scipy implements it (with the
    default tolerances and iteration bound, [ValueError] when the function
    has the same sign at both ends or yields NaN, [RuntimeError] when the
    iterations run out), makes the solver executable. *)

Module Brent.
Local Open Scope float_scope.

Definition xtol : float := 2e-12.
Definition rtol : float := 0x1p-50.     (* 4 * machine epsilon *)
Definition maxiter : nat := 100.

Record state : Set := {
  xpre : float; xcur : float; xblk : float;
  fpre : float; fcur : float; fblk : float;
  spre : float; scur : float
}.

(** The wrapper that scipy puts around the user's function. *)
Definition wrap_nan_raise (f : float -> Run float) (x : float) : Run float :=
  let* fx := f x in
  if is_nan fx then raise ValueError else ret fx.

Definition min_float (a b : float) : float := if a <? b then a else b.

(** One pass of the loop of [brentq.c] up to the next evaluation of [f]:
    [inl x] when it converged to [x], [inr s] with the state whose [xcur]
    is the next point to evaluate. *)
Definition step (s : state) : float + state :=
  let s :=
    if negb (fpre s =? 0) && negb (fcur s =? 0)
       && negb (Bool.eqb (get_sign (fpre s)) (get_sign (fcur s)))
    then {| xpre := xpre s; xcur := xcur s; xblk := xpre s;
            fpre := fpre s; fcur := fcur s; fblk := fpre s;
            spre := xcur s - xpre s; scur := xcur s - xpre s |}
    else s in
  let s :=
    if abs (fblk s) <? abs (fcur s)
    then {| xpre := xcur s; xcur := xblk s; xblk := xcur s;
            fpre := fcur s; fcur := fblk s; fblk := fcur s;
            spre := spre s; scur := scur s |}
    else s in
  let delta := (xtol + rtol * abs (xcur s)) / 2 in
  let sbis := (xblk s - xcur s) / 2 in
  if (fcur s =? 0) || (abs sbis <? delta) then inl (xcur s)
  else
    let (spre', scur') :=
      if (delta <? abs (spre s)) && (abs (fcur s) <? abs (fpre s)) then
        let stry :=
          if xpre s =? xblk s then
            - fcur s * (xcur s - xpre s) / (fcur s - fpre s)
          else
            let dpre := (fpre s - fcur s) / (xpre s - xcur s) in
            let dblk := (fblk s - fcur s) / (xblk s - xcur s) in
            - fcur s * (fblk s * dblk - fpre s * dpre)
              / (dblk * dpre * (fblk s - fpre s)) in
        if 2 * abs stry <? min_float (abs (spre s)) (3 * abs sbis - delta)
        then (scur s, stry)
        else (sbis, sbis)
      else (sbis, sbis) in
    let xnext :=
      if delta <? abs scur' then xcur s + scur'
      else xcur s + (if 0 <? sbis then delta else - delta) in
    inr {| xpre := xcur s; xcur := xnext; xblk := xblk s;
           fpre := fcur s; fcur := fcur s; fblk := fblk s;
           spre := spre'; scur := scur' |}.

Fixpoint iterate (f : float -> Run float) (fuel : nat) (s : state) : Run float :=
  match fuel with
  | O => raise RuntimeError          (* failed to converge *)
  | S fuel' =>
      match step s with
      | inl x => ret x
      | inr s' =>
          let* fx := f (xcur s') in
          iterate f fuel' {| xpre := xpre s'; xcur := xcur s'; xblk := xblk s';
                             fpre := fpre s'; fcur := fx; fblk := fblk s';
                             spre := spre s'; scur := scur s' |}
      end
  end.

Definition brentq (f : float -> Run float) (a b : float) : Run float :=
  let f := wrap_nan_raise f in
  let* fa := f a in
  let* fb := f b in
  if fa =? 0 then ret a
  else if fb =? 0 then ret b
  else if Bool.eqb (get_sign fa) (get_sign fb) then raise ValueError
  else iterate f maxiter
         {| xpre := a; xcur := b; xblk := 0; fpre := fa; fcur := fb; fblk := 0;
            spre := 0; scur := 0 |}.

End Brent.

(** ** A software model of the library functions

    Stand-ins for [np.log], [np.exp] and [norm.cdf], accurate to about
    twelve digits and exact on the special values (log 1 = 0, exp 0 = 1,
    NaN in, NaN out).  They make the float reading executable; every
    universally quantified statement below holds for any [Libm]. *)

Module LibmModel.
Local Open Scope float_scope.

(** e^y for small |y|, by the Taylor polynomial in Horner form:
    1 + y/1 (1 + y/2 (1 + ... (1 + y/n))). *)
Fixpoint exp_horner (n : nat) (k : float) (y acc : float) : float :=
  match n with
  | O => acc
  | S n' => exp_horner n' (k - 1) y (1 + y / k * acc)
  end.

Fixpoint square_times (n : nat) (x : float) : float :=
  match n with
  | O => x
  | S n' => square_times n' (x * x)
  end.

Definition exp (x : float) : float :=
  if x <? -746 then 0
  else if 710 <? x then infinity
  else square_times 10 (exp_horner 24 24 (x / 1024) 1).

(** Sum of s^(2k) / (2k+1) for k < n, from the last term down. *)
Fixpoint atanh_series (n : nat) (d : float) (s2 acc : float) : float :=
  match n with
  | O => acc
  | S n' => atanh_series n' (d - 2) s2 (1 / d + s2 * acc)
  end.

Definition ln2 : float := 0x1.62e42fefa39efp-1.

Definition log (x : float) : float :=
  if is_nan x then x
  else if x <? 0 then nan
  else if x =? 0 then neg_infinity
  else if x =? infinity then infinity
  else
    let (m, e) := Z.frexp x in
    let (m, e) := if m <? 0x1.6a09e667f3bcdp-1 then (2 * m, (e - 1)%Z) else (m, e) in
    let s := (m - 1) / (m + 1) in
    let fe := if (e <? 0)%Z then - of_uint63 (Uint63.of_Z (- e)) else of_uint63 (Uint63.of_Z e) in
    fe * ln2 + 2 * s * atanh_series 16 31 (s * s) 0.

Definition inv_sqrt_2pi : float := 0x1.9884533d43651p-2.

Definition pdf (x : float) : float := inv_sqrt_2pi * exp (- (x * x) / 2).

(** Sum over k of x^(2k+1) / (1 * 3 * ... * (2k+1)), in Horner form. *)
Fixpoint cdf_series (n : nat) (d : float) (x2 acc : float) : float :=
  match n with
  | O => acc
  | S n' => cdf_series n' (d - 2) x2 (1 + x2 / d * acc)
  end.

(** The continued fraction x + 1/(x + 2/(x + 3/(...))) of the Mills ratio. *)
Fixpoint mills_fraction (n : nat) (k : float) (x acc : float) : float :=
  match n with
  | O => acc
  | S n' => mills_fraction n' (k - 1) x (x + k / acc)
  end.

Definition upper_tail (x : float) : float := pdf x / mills_fraction 200 200 x x.

Definition cdf (x : float) : float :=
  if is_nan x then x
  else if x <? -38 then 0
  else if 8.5 <? x then 1
  else if x <? -3 then upper_tail (- x)
  else if 3 <? x then 1 - upper_tail x
  else 0.5 + pdf x * (x * cdf_series 120 241 (x * x) 1).

End LibmModel.

Definition libm_model : Libm :=
  {| libm_log := LibmModel.log; libm_exp := LibmModel.exp; libm_cdf := LibmModel.cdf |}.
Definition scipy_model : Imports := {| libm := libm_model; brentq := Brent.brentq |}.

(** The module as it would be with the missing name bound: the namespace
    with [bs_call_price] bound to the dividend-aware call pricer, in the
    argument order of the call in [objective_function].  No run of the
    module as written has it; it serves to exercise the [except] clause of
    line 68, which a run of the module as written does not reach. *)
Definition with_call_price (L : Libm) : namespace :=
  <[ "bs_call_price" :=
       def6 "bs_call_price" (fun S K T r sigma q => @bs_call_div _ (FloatArith L) S K T r q sigma) ]>
  (module_globals L).

(** ** The script around the solver, lines 77-238 of the source *)

Module Script.

(** A row of [opt_chain.calls] or [opt_chain.puts], with the columns the
    script reads. *)
Record quote : Set := { q_strike : float; q_bid : float; q_ask : float }.

(** The dict appended to [option_call_data] and [option_put_data].  Dates
    are day numbers: the script only holds midnights ([today] is
    normalized, expirations are dates). *)
Record entry : Set := {
  expirationDate : Z; strike : float; bid : float; ask : float; mid : float
}.

(** A row of the data frames once lines 209-213 have added their columns. *)
Record row : Set := {
  quoted : entry; daysToExpiration : Z; timeToExpiration : float
}.

(** What a call to the market-data provider gives: a value, or an
    exception with its text. *)
Inductive fetched (A : Type) : Type :=
| Fetched (a : A)
| FetchError (e : string).
Arguments Fetched {A} a.
Arguments FetchError {A} e.

Record Provider : Type := {
  ticker_options : fetched (list Z);                        (* [ticker.options] *)
  ticker_option_chain : Z -> fetched (list quote * list quote);
                                        (* [ticker.option_chain(date)]: calls, puts *)
  ticker_history : fetched (list float)   (* the [Close] column of [ticker.history] *)
}.

(** The values of the sidebar widgets the modelled lines read. *)
Record Sidebar : Type := {
  ticker_symbol : string;
  min_strike_pct : float;
  max_strike_pct : float
}.

(** The messages the script shows. *)
Inductive message : Type :=
| MinNotBelowMax                                (* line 131 *)
| OptionsFetchFailed (ticker e : string)        (* line 141 *)
| NoExpirationDates (ticker : string)           (* line 147 *)
| ChainFetchFailed (exp_date : Z) (e : string)  (* line 158 *)
| NoOptionData                                  (* line 193 *)
| SpotHistoryEmpty (ticker : string)            (* line 201 *)
| SpotFetchFailed (e : string).                 (* line 206 *)

(** What a run of the script does, in order. *)
Inductive step : Type :=
| SidebarError (m : message)      (* [st.sidebar.error] *)
| Error (m : message)             (* [st.error] *)
| Warning (m : message)           (* [st.warning] *)
| Spinner                         (* [st.spinner], line 228 *)
| QueryOptions                    (* line 139 *)
| QueryChain (exp_date : Z)       (* line 154 *)
| QueryHistory                    (* line 199 *)
| Core (ev : event).              (* a call recorded by the solver *)

Inductive failure : Type :=
| Uncaught (e : exn)
| KeyError (column : string).

(** How a run ends: at the end of the script, at [st.stop()], or with an
    exception nobody handles. *)
Inductive ending (A : Type) : Type :=
| Done (a : A)
| Stopped
| Failed (f : failure).
Arguments Done {A} a.
Arguments Stopped {A}.
Arguments Failed {A} f.

Definition Scr (A : Type) : Type := (list step * ending A)%type.

Definition done {A} (a : A) : Scr A := ([], Done a).
Definition emit (s : step) : Scr unit := ([s], Done tt).
Definition stop {A} : Scr A := ([], Stopped).
Definition fail {A} (f : failure) : Scr A := ([], Failed f).
Definition andthen {A B} (m : Scr A) (k : A -> Scr B) : Scr B :=
  match m with
  | (t, Done a) => let (t', o) := k a in (t ++ t', o)
  | (t, Stopped) => (t, Stopped)
  | (t, Failed f) => (t, Failed f)
  end.

Declare Scope script_scope.
Delimit Scope script_scope with script.
Notation "'let*' x ':=' m 'in' k" := (andthen m (fun x => k))
  (at level 10, x pattern, m at level 200, k at level 200) : script_scope.
Local Open Scope script_scope.

(** A run of the solver's world inside the script. *)
Definition lift {A} (m : Run A) : Scr A :=
  match m with
  | (t, Return a) => (map Core t, Done a)
  | (t, Raise e) => (map Core t, Failed (Uncaught e))
  end.

Definition float_of_Z (n : Z) : float :=
  if (n <? 0)%Z then (- of_uint63 (Uint63.of_Z (- n)))%float
  else of_uint63 (Uint63.of_Z n).

(** Lines 161-162: [(calls['bid'] > 0) & (calls['ask'] > 0)]. *)
Definition positive_quote (q : quote) : bool :=
  ((0 <? q_bid q) && (0 <? q_ask q))%float.

(** Lines 165-176 (and 179-190): the dict built from a row. *)
Definition entry_of (exp_date : Z) (q : quote) : entry :=
  let strike := q_strike q in
  let bid := q_bid q in
  let ask := q_ask q in
  let mid_price := ((bid + ask) / 2)%float in
  {| expirationDate := exp_date; strike := strike; bid := bid; ask := ask;
     mid := mid_price |}.

(** Lines 178-190: the loop over [puts], as it stands inside the loop over
    [calls]. *)
Definition append_puts (exp_date : Z) (puts : list quote) (option_put_data : list entry)
  : list entry :=
  fold_left (fun data q => data ++ [entry_of exp_date q]) puts option_put_data.

(** Lines 161-190: one expiration's quotes, added to the two lists. *)
Definition append_chain (exp_date : Z) (calls puts : list quote)
    (data : list entry * list entry) : list entry * list entry :=
  let calls := List.filter positive_quote calls in
  let puts := List.filter positive_quote puts in
  fold_left
    (fun data q =>
       (fst data ++ [entry_of exp_date q], append_puts exp_date puts (snd data)))
    calls data.

(** Lines 152-190: the loop over the expiration dates. *)
Fixpoint collect (P : Provider) (exp_dates : list Z) (data : list entry * list entry)
  : Scr (list entry * list entry) :=
  match exp_dates with
  | [] => done data
  | exp_date :: later =>
      let* _ := emit (QueryChain exp_date) in
      match ticker_option_chain P exp_date with
      | Fetched (calls, puts) => collect P later (append_chain exp_date calls puts data)
      | FetchError e =>
          let* _ := emit (Warning (ChainFetchFailed exp_date e)) in
          collect P later data
      end
  end.

(** Line 144: the expirations more than a week away. *)
Definition later_than_a_week (today : Z) (expirations : list Z) : list Z :=
  List.filter (fun exp => (today + 7 <? exp)%Z) expirations.

(** Lines 209-213: [df['expirationDate']] of a frame built from a list of
    dicts is a [KeyError] when the list is empty (the frame has no column);
    otherwise the two columns are added to every row. *)
Definition with_expiry (today : Z) (data : list entry) : Scr (list row) :=
  match data with
  | [] => fail (KeyError "expirationDate")
  | _ =>
      done (map (fun e =>
                   let days := (expirationDate e - today)%Z in
                   {| quoted := e; daysToExpiration := days;
                      timeToExpiration := (float_of_Z days / 365)%float |})
                data)
  end.

(** Lines 215-223: the strike filter. *)
Definition strike_in_range (W : Sidebar) (spot_price : float) (r : row) : bool :=
  ((spot_price * (min_strike_pct W / 100) <=? strike (quoted r))
   && (strike (quoted r) <=? spot_price * (max_strike_pct W / 100)))%float.

(** Lines 198-207: the spot price, the last close of the history. *)
Definition fetch_spot (W : Sidebar) (P : Provider) : Scr float :=
  let* _ := emit QueryHistory in
  match ticker_history P with
  | Fetched [] =>
      let* _ := emit (Error (SpotHistoryEmpty (ticker_symbol W))) in stop
  | Fetched (c :: closes) => done (List.last closes c)
  | FetchError e =>
      let* _ := emit (Error (SpotFetchFailed e)) in stop
  end.

Section Run.
(** The names bound in the module, and what the script does from the
    [apply] of line 229 on (the solver on every row, the interpolation and
    the chart), which is not modelled: it receives the two frames, the spot
    price and the object [options_df] it works on. *)
Variables (G : namespace)
          (rest : list row -> list row -> float -> pyobj -> Scr unit).

Definition script (W : Sidebar) (P : Provider) (today : Z) : Scr unit :=
  if (max_strike_pct W <=? min_strike_pct W)%float then          (* line 130 *)
    let* _ := emit (SidebarError MinNotBelowMax) in stop
  else
    let* _ := emit QueryOptions in                               (* lines 138-142 *)
    let* expirations :=
      match ticker_options P with
      | Fetched expirations => done expirations
      | FetchError e =>
          let* _ := emit (Error (OptionsFetchFailed (ticker_symbol W) e)) in stop
      end in
    let exp_dates := later_than_a_week today expirations in      (* line 144 *)
    match exp_dates with
    | [] => emit (Error (NoExpirationDates (ticker_symbol W)))   (* lines 146-147 *)
    | _ =>
        let* data := collect P exp_dates ([], []) in             (* lines 149-190 *)
        let option_call_data := fst data in
        let option_put_data := snd data in
        match option_call_data with
        | [] => emit (Error NoOptionData)                        (* lines 192-193 *)
        | _ =>
            let* spot_price := fetch_spot W P in                 (* lines 198-207 *)
            let* call_options_df := with_expiry today option_call_data in
            let* put_options_df := with_expiry today option_put_data in
            let call_options_df :=
              List.filter (strike_in_range W spot_price) call_options_df in
            let put_options_df :=
              List.filter (strike_in_range W spot_price) put_options_df in
            let* _ := emit Spinner in                            (* line 228 *)
            let* options_df := lift (load_global G "options_df") in   (* line 229 *)
            rest call_options_df put_options_df spot_price options_df
        end
    end.

End Run.

End Script.

(** ** Vocabulary of the statements about the script *)

Module ScriptVocabulary.
Import Script.

(** The quotes of an expiration that the script keeps: those of the chain
    the provider returned, with positive bid and ask; none when the fetch
    failed. *)
Definition calls_at (P : Provider) (exp_date : Z) : list quote :=
  match ticker_option_chain P exp_date with
  | Fetched (calls, _) => List.filter positive_quote calls
  | FetchError _ => []
  end.
Definition puts_at (P : Provider) (exp_date : Z) : list quote :=
  match ticker_option_chain P exp_date with
  | Fetched (_, puts) => List.filter positive_quote puts
  | FetchError _ => []
  end.

(** The two lists as the loops of lines 152-190 leave them, described
    without loops. *)
Definition call_data (P : Provider) (exp_dates : list Z) : list entry :=
  flat_map (fun d => map (entry_of d) (calls_at P d)) exp_dates.
Definition put_data (P : Provider) (exp_dates : list Z) : list entry :=
  flat_map (fun d => flat_map (fun _ => map (entry_of d) (puts_at P d)) (calls_at P d))
           exp_dates.

(** A provider for examples: of three expirations the first is within the
    week, the second has three calls (one of them without a bid) and two
    puts, and the chain of the third cannot be fetched. *)
Definition demo_provider : Provider := {|
  ticker_options := Fetched [3; 10; 30]%Z;
  ticker_option_chain := fun d =>
    if (d =? 10)%Z then
      Fetched ([ {| q_strike := 95; q_bid := 6; q_ask := 6.5 |};
                 {| q_strike := 100; q_bid := 0; q_ask := 3 |};
                 {| q_strike := 105; q_bid := 1; q_ask := 1.5 |} ],
               [ {| q_strike := 95; q_bid := 1; q_ask := 1.25 |};
                 {| q_strike := 100; q_bid := 3; q_ask := 3.5 |} ])%float
    else FetchError "timed out";
  ticker_history := Fetched [99.5; 100]%float
|}.
Definition demo_sidebar : Sidebar :=
  {| ticker_symbol := "SPY"; min_strike_pct := 80; max_strike_pct := 120 |}.

(** What lines 161-190 guarantee of an entry. *)
Definition well_formed (exp_dates : list Z) (e : entry) : Prop :=
  In (expirationDate e) exp_dates
  /\ (0 <? bid e)%float = true /\ (0 <? ask e)%float = true
  /\ mid e = ((bid e + ask e) / 2)%float.

(** A chain with puts on offer but no call that has both a bid and an
    ask. *)
Definition puts_only_provider : Provider := {|
  ticker_options := Fetched [10]%Z;
  ticker_option_chain := fun d =>
    Fetched ([ {| q_strike := 100; q_bid := 0; q_ask := 3 |} ],
             [ {| q_strike := 95; q_bid := 1; q_ask := 1.25 |} ])%float;
  ticker_history := Fetched [100]%float
|}.

(** The rows of a frame, when it could be built. *)
Definition rows_of (m : Scr (list row)) : list row :=
  match snd m with Done rows => rows | _ => [] end.

(** The steps of a run that are calls of the solver or of a pricer, and
    those that are requests to the provider. *)
Definition is_core (s : step) : bool :=
  match s with Core _ => true | _ => false end.
Definition is_query (s : step) : bool :=
  match s with QueryOptions | QueryChain _ | QueryHistory => true | _ => false end.

(** Some expiration has a call with a bid and an ask; some expiration has
    such a call and such a put. *)
Definition some_call (P : Provider) (exp_dates : list Z) : Prop :=
  exists d, In d exp_dates /\ calls_at P d <> [].
Definition some_call_and_put (P : Provider) (exp_dates : list Z) : Prop :=
  exists d, In d exp_dates /\ calls_at P d <> [] /\ puts_at P d <> [].

(** How a run ends, read off the inputs. *)
Definition script_ending (W : Sidebar) (P : Provider) (today : Z) : ending unit :=
  if (max_strike_pct W <=? min_strike_pct W)%float then Stopped
  else
    match ticker_options P with
    | FetchError _ => Stopped
    | Fetched expirations =>
        let exp_dates := later_than_a_week today expirations in
        match call_data P exp_dates with
        | [] => Done tt
        | _ =>
            match ticker_history P with
            | Fetched (_ :: _) =>
                match put_data P exp_dates with
                | [] => Failed (KeyError "expirationDate")
                | _ => Failed (Uncaught (NameError "options_df"))
                end
            | _ => Stopped
            end
        end
    end.

(** A chain with calls on offer and no put. *)
Definition calls_only_provider : Provider := {|
  ticker_options := Fetched [10]%Z;
  ticker_option_chain := fun d =>
    Fetched ([ {| q_strike := 100; q_bid := 3; q_ask := 3.5 |} ], [])%float;
  ticker_history := Fetched [100]%float
|}.

End ScriptVocabulary.

(** ** Vocabulary of the statements about the solver *)

(** What the statements below assume of [brentq] where they need it: it
    evaluates its function at the lower end of the bracket before anything
    else, and an exception raised there is the outcome of the call. *)
Definition evaluates_lower_end_first (I : Imports) : Prop :=
  forall (f : float -> Run float) (a b : float) (t : list event) (e : exn),
    f a = (t, Raise e) -> brentq I f a b = (t, Raise e).

(** The guard of line 60, [T <= 0 or price <= 0]. *)
Definition rejected (price T : float) : bool :=
  ((T <=? 0) || (price <=? 0))%float.


(** What the guard of line 60 lets through: a float that is not [<= 0]. *)
Definition positive_or_nan (x : float) : bool := ((0 <? x) || is_nan x)%float.

(** * Properties of the pricers, in exact arithmetic *)

Module PricerProperties.
Import Gauss Ideal.
Local Open Scope R_scope.



Lemma bs_call_div_incr (S K T r q s1 s2 : R) :
  0 < S -> 0 < K -> 0 < T -> 0 < s1 -> s1 < s2 ->
  bs_call_div S K T r q s1 < bs_call_div S K T r q s2.
Proof.
  intros HS HK HT H1 H12.
  rewrite !bs_call_div_reduced by lra.
  assert (Hs : 0 < R_sqrt.sqrt T) by now apply sqrt_lt_R0.
  apply black_call_incr.
  - apply Rmult_lt_0_compat; [ exact HK | apply exp_pos ].
  - now apply discount_ratio.
  - now apply Rmult_lt_0_compat.
  - now apply Rmult_lt_compat_r.
Qed.

Lemma call_no_div_is_q_zero (S K T r sigma : R) :
  bs_call_div S K T r 0 sigma = bs_call_no_div S K T r sigma.
Proof.
  unfold bs_call_div, bs_call_no_div. simpl.
  rewrite Rminus_0_r.
  replace (- 0 * T) with 0 by ring. rewrite exp_0, Rmult_1_r. reflexivity.
Qed.

Lemma put_no_div_is_q_zero (S K T r sigma : R) :
  bs_put_div S K T r 0 sigma = bs_put_no_div S K T r sigma.
Proof.
  unfold bs_put_div, bs_put_no_div. simpl.
  rewrite Rminus_0_r.
  replace (- 0 * T) with 0 by ring. rewrite exp_0, Rmult_1_r. reflexivity.
Qed.

Lemma call_minus_put (S K T r q sigma : R) :
  bs_call_div S K T r q sigma - bs_put_div S K T r q sigma
  = S * exp (- q * T) - K * exp (- r * T).
Proof.
  unfold bs_call_div, bs_put_div. simpl.
  set (d1 := (ln (S / K) + (r - q + sigma * sigma / 2) * T) / (sigma * R_sqrt.sqrt T)).
  set (d2 := d1 - sigma * R_sqrt.sqrt T).
  pose proof (cdf_symmetry d1) as H1. pose proof (cdf_symmetry d2) as H2.
  replace (cdf (- d1)) with (1 - cdf d1) by lra.
  replace (cdf (- d2)) with (1 - cdf d2) by lra.
  ring.
Qed.

(** C5.  With [q = 0] the dividend-aware call and put prices are the
    no-dividend call and put prices: for all [S, K, T, sigma > 0] and every
    rate [r], [bs_call_div S K T r 0 sigma = bs_call_no_div S K T r sigma]
    and [bs_put_div S K T r 0 sigma = bs_put_no_div S K T r sigma]. *)
Theorem q_zero_agreement (S K T r sigma : R) :
  0 < S -> 0 < K -> 0 < T -> 0 < sigma ->
  bs_call_div S K T r 0 sigma = bs_call_no_div S K T r sigma /\
  bs_put_div S K T r 0 sigma = bs_put_no_div S K T r sigma.
Proof.
  intros _ _ _ _.
  split; [ apply call_no_div_is_q_zero | apply put_no_div_is_q_zero ].
Qed.

Lemma q_zero_agreement_witness :
  bs_call_div 100 100 1 (5 / 100) 0 (2 / 10)
    = bs_call_no_div 100 100 1 (5 / 100) (2 / 10) /\
  bs_put_div 100 100 1 (5 / 100) 0 (2 / 10)
    = bs_put_no_div 100 100 1 (5 / 100) (2 / 10).
Proof. apply q_zero_agreement; lra. Defined.

End PricerProperties.

(** * Properties of the pricers, with rounding *)

(** What the exact properties become when every operation rounds: each
    price is within a tolerance of its exact value, and parity, sign and
    monotonicity hold up to that tolerance. *)

Module PricerRounding.
Import Rounded.
Local Open Scope R_scope.
#[local] Abbreviation sqrt := R_sqrt.sqrt.

(** ** One operation *)

Section Steps.
Variables (M : Machine) (u ul ue ec : R).
Hypothesis HM : Accurate M u ul ue ec.

Lemma fin_some z x : fin M z = Some x -> x = z.
Proof. unfold fin. destruct (in_range M z); congruence. Qed.

Lemma fin_in_range z x : fin M z = Some x -> in_range M z = true.
Proof. unfold fin. destruct (in_range M z); congruence. Qed.

Lemma approx_exact a : approx (Some a) a 0.
Proof. intros x [= <-]. rewrite Rminus_diag, Rabs_R0. lra. Qed.

Lemma rounded z a e : Rabs (z - a) <= e -> Rabs (rnd M z - a) <= e + u * (Rabs a + e).
Proof.
  intro H. pose proof (rnd_err _ _ _ _ _ HM z) as Hr.
  pose proof (u_small _ _ _ _ _ HM) as Hu.
  assert (Rabs z <= Rabs a + e).
  { replace z with (a + (z - a)) by ring.
    eapply Rle_trans; [ apply Rabs_triang | lra ]. }
  replace (rnd M z - a) with ((rnd M z - z) + (z - a)) by ring.
  eapply Rle_trans; [ apply Rabs_triang | ].
  assert (u * Rabs z <= u * (Rabs a + e)) by (apply Rmult_le_compat_l; lra).
  lra.
Qed.

Lemma approx_add X Y a ea b eb :
  approx X a ea -> approx Y b eb ->
  approx (@num_add _ (RoundedArith M) X Y) (a + b) (add_bound u a ea b eb).
Proof.
  intros HX HY z Hz. destruct X as [x |], Y as [y |]; try discriminate Hz.
  simpl in Hz. apply fin_some in Hz. subst z.
  specialize (HX x eq_refl). specialize (HY y eq_refl).
  unfold add_bound.
  assert (Rabs (x + y - (a + b)) <= ea + eb).
  { replace (x + y - (a + b)) with ((x - a) + (y - b)) by ring.
    eapply Rle_trans; [ apply Rabs_triang | lra ]. }
  pose proof (rounded _ _ _ H). lra.
Qed.

Lemma approx_sub X Y a ea b eb :
  approx X a ea -> approx Y b eb ->
  approx (@num_sub _ (RoundedArith M) X Y) (a - b) (sub_bound u a ea b eb).
Proof.
  intros HX HY z Hz. destruct X as [x |], Y as [y |]; try discriminate Hz.
  simpl in Hz. apply fin_some in Hz. subst z.
  specialize (HX x eq_refl). specialize (HY y eq_refl).
  unfold sub_bound.
  assert (Rabs (x - y - (a - b)) <= ea + eb).
  { replace (x - y - (a - b)) with ((x - a) + - (y - b)) by ring.
    eapply Rle_trans; [ apply Rabs_triang | rewrite Rabs_Ropp; lra ]. }
  pose proof (rounded _ _ _ H). lra.
Qed.

Lemma mul_close x y a ea b eb :
  Rabs (x - a) <= ea -> Rabs (y - b) <= eb ->
  Rabs (x * y - a * b) <= Rabs a * eb + Rabs b * ea + ea * eb.
Proof.
  intros Hx Hy.
  replace (x * y - a * b) with (a * (y - b) + b * (x - a) + (x - a) * (y - b)) by ring.
  eapply Rle_trans; [ apply Rabs_triang | ].
  eapply Rle_trans; [ apply Rplus_le_compat_r, Rabs_triang | ].
  rewrite !Rabs_mult.
  pose proof (Rabs_pos a). pose proof (Rabs_pos b).
  pose proof (Rabs_pos (x - a)). pose proof (Rabs_pos (y - b)).
  assert (Rabs a * Rabs (y - b) <= Rabs a * eb) by (apply Rmult_le_compat_l; lra).
  assert (Rabs b * Rabs (x - a) <= Rabs b * ea) by (apply Rmult_le_compat_l; lra).
  assert (Rabs (x - a) * Rabs (y - b) <= ea * eb) by (apply Rmult_le_compat; lra).
  lra.
Qed.

Lemma approx_mul X Y a ea b eb :
  approx X a ea -> approx Y b eb ->
  approx (@num_mul _ (RoundedArith M) X Y) (a * b) (mul_bound u a ea b eb).
Proof.
  intros HX HY z Hz. destruct X as [x |], Y as [y |]; try discriminate Hz.
  simpl in Hz. apply fin_some in Hz. subst z.
  specialize (HX x eq_refl). specialize (HY y eq_refl).
  unfold mul_bound.
  pose proof (rounded _ _ _ (mul_close _ _ _ _ _ _ HX HY)) as H.
  pose proof (u_small _ _ _ _ _ HM).
  lra.
Qed.


Lemma approx_neg X a e :
  approx X a e -> approx (@num_neg _ (RoundedArith M) X) (- a) e.
Proof.
  intros HX z Hz. destruct X as [x |]; try discriminate Hz.
  simpl in Hz. injection Hz as <-. specialize (HX x eq_refl).
  replace (- x - - a) with (- (x - a)) by ring. now rewrite Rabs_Ropp.
Qed.

Lemma approx_sqr X a ea :
  approx X a ea ->
  approx (@num_sqr _ (RoundedArith M) X) (a * a) (mul_bound u a ea a ea).
Proof.
  intros HX z Hz. destruct X as [x |]; try discriminate Hz.
  simpl in Hz. apply fin_some in Hz. subst z.
  specialize (HX x eq_refl). unfold mul_bound.
  pose proof (rounded _ _ _ (mul_close _ _ _ _ _ _ HX HX)) as H.
  pose proof (u_small _ _ _ _ _ HM).
  lra.
Qed.

Lemma div_close x y a ea b eb :
  Rabs (x - a) <= ea -> Rabs (y - b) <= eb -> 0 < b -> eb < b ->
  Rabs (x / y - a / b) <= (ea * b + Rabs a * eb) / (b * (b - eb)).
Proof.
  intros Hx Hy Hb Heb.
  pose proof (Gauss.Rabs_le_inv _ _ Hy) as Hy'.
  assert (Hypos : 0 < y) by lra.
  assert (Hea : 0 <= ea) by (pose proof (Rabs_pos (x - a)); lra).
  assert (Hebp : 0 <= eb) by (pose proof (Rabs_pos (y - b)); lra).
  replace (x / y - a / b) with (((x - a) * b - a * (y - b)) / (y * b)) by (field; lra).
  unfold Rdiv at 1. rewrite Rabs_mult, Rabs_inv.
  rewrite (Rabs_pos_eq (y * b)) by (apply Rmult_le_pos; lra).
  assert (Hnum : Rabs ((x - a) * b - a * (y - b)) <= ea * b + Rabs a * eb).
  { eapply Rle_trans; [ apply Rabs_triang | ].
    rewrite Rabs_Ropp, !Rabs_mult, (Rabs_pos_eq b) by lra.
    pose proof (Rabs_pos a).
    assert (Rabs (x - a) * b <= ea * b) by (apply Rmult_le_compat_r; lra).
    assert (Rabs a * Rabs (y - b) <= Rabs a * eb) by (apply Rmult_le_compat_l; lra).
    lra. }
  assert (Hden : / (y * b) <= / (b * (b - eb))).
  { apply Rinv_le_contravar.
    - apply Rmult_lt_0_compat; lra.
    - rewrite (Rmult_comm y b). apply Rmult_le_compat_l; lra. }
  unfold Rdiv.
  apply Rmult_le_compat; try assumption.
  - apply Rabs_pos.
  - left. apply Rinv_0_lt_compat, Rmult_lt_0_compat; lra.
Qed.

Lemma approx_div X Y a ea b eb :
  approx X a ea -> approx Y b eb -> 0 < b -> eb < b ->
  approx (@num_div _ (RoundedArith M) X Y) (a / b) (div_bound u a ea b eb).
Proof.
  intros HX HY Hb Heb z Hz. destruct X as [x |], Y as [y |]; try discriminate Hz.
  simpl in Hz. destruct (Req_dec_T y 0) as [_ | _]; [ discriminate Hz | ].
  apply fin_some in Hz. subst z.
  specialize (HX x eq_refl). specialize (HY y eq_refl).
  unfold div_bound.
  pose proof (rounded _ _ _ (div_close _ _ _ _ _ _ HX HY Hb Heb)) as H.
  pose proof (u_small _ _ _ _ _ HM).
  lra.
Qed.

Lemma approx_sqrt a :
  0 <= a -> approx (@np_sqrt _ (RoundedArith M) (Some a)) (sqrt a) (sqrt_bound u a).
Proof.
  intros Ha z Hz. simpl in Hz. destruct (Rle_dec 0 a); [ | discriminate Hz ].
  apply fin_some in Hz. subst z. unfold sqrt_bound.
  pose proof (rnd_err _ _ _ _ _ HM (sqrt a)) as H.
  rewrite (Rabs_pos_eq (sqrt a)) in H by apply sqrt_pos. exact H.
Qed.

Lemma ln_near_1 t : Rabs t <= / 2 -> Rabs (ln (1 + t)) <= 2 * Rabs t.
Proof.
  intro Ht. pose proof (Gauss.Rabs_le_inv _ _ Ht) as [Hlo Hhi].
  assert (Hup : ln (1 + t) <= t).
  { pose proof (exp_ineq1_le t) as H.
    destruct H as [H | H].
    - left. rewrite <- (ln_exp t) at 2. apply ln_increasing; lra.
    - right. rewrite H. apply ln_exp. }
  assert (Hdown : - (2 * Rabs t) <= ln (1 + t)).
  { assert (Hs : 0 < 1 + t) by lra.
    pose proof (exp_ineq1_le (- ln (1 + t))) as H.
    rewrite exp_Ropp, exp_ln in H by exact Hs.
    (* 1 - ln(1+t) <= 1/(1+t) *)
    assert (/ (1 + t) <= 1 + 2 * Rabs t).
    { destruct (Rle_dec 0 t) as [Hp | Hn].
      - rewrite (Rabs_pos_eq t) by exact Hp.
        assert (/ (1 + t) <= / 1) by (apply Rinv_le_contravar; lra).
        rewrite Rinv_1 in *. lra.
      - rewrite (Rabs_left t) by lra.
        apply Rmult_le_reg_r with (1 + t); [ exact Hs | ].
        rewrite Rinv_l by lra. nra. }
    lra. }
  apply Rabs_le. pose proof (Rle_abs t). lra.
Qed.

Lemma approx_log X a ea :
  approx X a ea -> 0 < a -> ea <= a / 2 ->
  approx (@np_log _ (RoundedArith M) X) (ln a) (log_bound ul a ea).
Proof.
  intros HX Ha Hea z Hz. destruct X as [x |]; try discriminate Hz.
  simpl in Hz. destruct (Rlt_dec 0 x) as [Hx | _]; [ | discriminate Hz ].
  apply fin_some in Hz. subst z.
  specialize (HX x eq_refl). unfold log_bound.
  pose proof (log_err _ _ _ _ _ HM x Hx) as Hl.
  pose proof (ul_pos _ _ _ _ _ HM) as Hul.
  assert (He0 : 0 <= ea) by (pose proof (Rabs_pos (x - a)); lra).
  assert (Ht : Rabs ((x - a) / a) <= ea / a).
  { unfold Rdiv. rewrite Rabs_mult, Rabs_inv, (Rabs_pos_eq a) by lra.
    apply Rmult_le_compat_r; [ left; now apply Rinv_0_lt_compat | exact HX ]. }
  assert (Hhalf : ea / a <= / 2).
  { apply Rmult_le_reg_r with a; [ exact Ha | ].
    unfold Rdiv. rewrite Rmult_assoc, Rinv_l by lra. lra. }
  assert (Hd : Rabs (ln x - ln a) <= 2 * (ea / a)).
  { replace (ln x - ln a) with (ln (1 + (x - a) / a)).
    - eapply Rle_trans; [ apply ln_near_1; lra | lra ].
    - replace (1 + (x - a) / a) with (x * / a) by (field; lra).
      rewrite ln_mult, ln_Rinv by (try apply Rinv_0_lt_compat; assumption). ring. }
  assert (Hx' : Rabs (ln x) <= Rabs (ln a) + 2 * (ea / a)).
  { replace (ln x) with (ln a + (ln x - ln a)) by ring.
    eapply Rle_trans; [ apply Rabs_triang | lra ]. }
  replace (m_log M x - ln a) with ((m_log M x - ln x) + (ln x - ln a)) by ring.
  eapply Rle_trans; [ apply Rabs_triang | ].
  assert (ul * Rabs (ln x) <= ul * (Rabs (ln a) + 2 * (ea / a)))
    by (apply Rmult_le_compat_l; lra).
  lra.
Qed.

Lemma exp_near d e : Rabs d <= e -> exp d <= exp e /\ Rabs (exp d - 1) <= exp e - 1.
Proof.
  intro H. pose proof (Gauss.Rabs_le_inv _ _ H) as [Hlo Hhi].
  assert (Hm : forall s t, s <= t -> exp s <= exp t).
  { intros s t [Hlt | ->]; [ left; now apply exp_increasing | lra ]. }
  split; [ now apply Hm | ].
  apply Rabs_le.
  pose proof (Hm d e Hhi). pose proof (Hm (- e) d Hlo) as H2.
  rewrite exp_Ropp in H2.
  pose proof (exp_pos e) as He.
  pose proof (exp_ineq1_le e). pose proof (exp_ineq1_le (- e)) as H4.
  rewrite exp_Ropp in H4.
  (* 1/exp e >= 2 - exp e, from (exp e - 1)^2 >= 0 *)
  assert (2 - exp e <= / exp e).
  { apply Rmult_le_reg_r with (exp e); [ exact He | ].
    rewrite Rinv_l by lra. nra. }
  lra.
Qed.

Lemma approx_exp X a ea :
  approx X a ea ->
  approx (@np_exp _ (RoundedArith M) X) (exp a) (exp_bound ue a ea).
Proof.
  intros HX z Hz. destruct X as [x |]; try discriminate Hz.
  simpl in Hz. destruct (Req_dec_T (m_exp M x) 0) as [_ | Hnz]; [ discriminate Hz | ].
  pose proof (fin_in_range _ _ Hz) as Hr. apply fin_some in Hz. subst z.
  specialize (HX x eq_refl). unfold exp_bound.
  pose proof (exp_err _ _ _ _ _ HM x Hnz Hr) as He.
  pose proof (ue_pos _ _ _ _ _ HM) as Hue.
  destruct (exp_near _ _ HX) as [H1 H2].
  pose proof (exp_pos a) as Ha.
  assert (Hx : exp x = exp a * exp (x - a)).
  { rewrite <- exp_plus. f_equal. ring. }
  replace (m_exp M x - exp a) with ((m_exp M x - exp x) + (exp x - exp a)) by ring.
  eapply Rle_trans; [ apply Rabs_triang | ].
  assert (Rabs (exp x - exp a) <= exp a * (exp ea - 1)).
  { rewrite Hx. replace (exp a * exp (x - a) - exp a) with (exp a * (exp (x - a) - 1)) by ring.
    rewrite Rabs_mult, (Rabs_pos_eq (exp a)) by lra.
    apply Rmult_le_compat_l; lra. }
  assert (ue * exp x <= ue * (exp a * exp ea)).
  { apply Rmult_le_compat_l; [ exact Hue | ]. rewrite Hx.
    apply Rmult_le_compat_l; lra. }
  lra.
Qed.

Lemma pdf_le_1 x : Gauss.pdf x <= 1.
Proof.
  unfold Gauss.pdf.
  assert (Hg : Gauss.gauss x <= 1).
  { unfold Gauss.gauss. rewrite <- exp_0.
    assert (- (x * x) / 2 <= 0) by (pose proof (pow2_ge_0 x); nra).
    destruct H as [H | ->]; [ left; now apply exp_increasing | lra ]. }
  assert (Hs : 1 <= sqrt (2 * PI)).
  { rewrite <- sqrt_1 at 1. apply sqrt_le_1_alt. pose proof PI2_1. lra. }
  pose proof (Gauss.gauss_pos x).
  apply Rmult_le_reg_r with (sqrt (2 * PI)); [ lra | ].
  unfold Rdiv. rewrite Rmult_assoc, Rinv_l by lra. nra.
Qed.

Lemma cdf_lipschitz x y : Rabs (Gauss.cdf y - Gauss.cdf x) <= Rabs (y - x).
Proof.
  pose proof (Gauss.lipschitz_of_deriv Gauss.cdf Gauss.pdf (Rmin x y) (Rmax x y) 1) as H.
  rewrite <- (Rmult_1_l (Rabs (y - x))). apply H.
  - intros; apply Gauss.cdf_deriv.
  - intros c _. rewrite Rabs_pos_eq; [ apply pdf_le_1 | left; apply Gauss.pdf_pos ].
  - split; [ apply Rmin_l | apply Rmax_l ].
  - split; [ apply Rmin_r | apply Rmax_r ].
Qed.

Lemma approx_cdf X a ea :
  approx X a ea ->
  approx (@norm_cdf _ (RoundedArith M) X) (Gauss.cdf a) (cdf_bound ec ea).
Proof.
  intros HX z Hz. destruct X as [x |]; try discriminate Hz.
  simpl in Hz. injection Hz as <-. specialize (HX x eq_refl). unfold cdf_bound.
  pose proof (cdf_err _ _ _ _ _ HM x) as Hc.
  pose proof (cdf_lipschitz a x) as Hl.
  replace (m_cdf M x - Gauss.cdf a)
    with ((m_cdf M x - Gauss.cdf x) + (Gauss.cdf x - Gauss.cdf a)) by ring.
  eapply Rle_trans; [ apply Rabs_triang | lra ].
Qed.

End Steps.

(** ** The two pricers *)

Section Pricers.
Variables (M : Machine) (u ul ue ec : R).
Hypothesis HM : Accurate M u ul ue ec.
Variables S K T r q sigma : R.
Hypotheses (HS : 0 < S) (HK : 0 < K) (HT : 0 < T) (Hsig : 0 < sigma).

Lemma total_vol_bound_small : total_vol_bound u T sigma < sigma * sqrt T.
Proof.
  pose proof (u_small _ _ _ _ _ HM) as Hu.
  assert (Hs : 0 < sqrt T) by now apply sqrt_lt_R0.
  assert (Hv : 0 < sigma * sqrt T) by now apply Rmult_lt_0_compat.
  unfold total_vol_bound, mul_bound, sqrt_bound.
  rewrite Rabs_mult, (Rabs_pos_eq sigma), (Rabs_pos_eq (sqrt T)) by lra.
  replace ((1 + u) * (sigma * (u * sqrt T) + sqrt T * 0 + 0 * (u * sqrt T))
           + u * (sigma * sqrt T))
    with ((u * (2 + u)) * (sigma * sqrt T)) by ring.
  assert (u * (2 + u) < 1) by nra.
  rewrite <- (Rmult_1_l (sigma * sqrt T)) at 2.
  now apply Rmult_lt_compat_r.
Qed.

Lemma approx_total_vol :
  approx (@num_mul _ (RoundedArith M) (Some sigma) (@np_sqrt _ (RoundedArith M) (Some T)))
    (sigma * sqrt T) (total_vol_bound u T sigma).
Proof.
  unfold total_vol_bound.
  apply (approx_mul M u ul ue ec HM); [ apply approx_exact | ].
  apply (approx_sqrt M u ul ue ec HM). lra.
Qed.

Lemma approx_d1 :
  approx
    (let A := RoundedArith M in
     ((np_log (Some S / Some K) + (Some r - Some q + (Some sigma)**2 / num_two) * Some T)
      / (Some sigma * np_sqrt (Some T)))%py)
    (d1 S K T r q sigma) (d1_bound u ul S K T r q sigma).
Proof.
  pose proof (u_small _ _ _ _ _ HM) as Hu.
  cbv zeta. unfold d1, d1_bound. cbv zeta.
  apply (approx_div M u ul ue ec HM).
  - apply (approx_add M u ul ue ec HM).
    + apply (approx_log M u ul ue ec HM).
      * apply (approx_div M u ul ue ec HM); try apply approx_exact; lra.
      * apply Rdiv_lt_0_compat; lra.
      * unfold div_bound.
        assert (0 < S / K) by (apply Rdiv_lt_0_compat; lra).
        rewrite (Rabs_pos_eq (S / K)) by lra.
        replace ((0 * K + Rabs S * 0) / (K * (K - 0))) with 0 by (field; lra).
        nra.
    + apply (approx_mul M u ul ue ec HM); [ | apply approx_exact ].
      apply (approx_add M u ul ue ec HM).
      * apply (approx_sub M u ul ue ec HM); apply approx_exact.
      * apply (approx_div M u ul ue ec HM); try lra.
        -- apply (approx_sqr M u ul ue ec HM), approx_exact.
        -- apply approx_exact.
  - apply approx_total_vol.
  - apply Rmult_lt_0_compat; [ lra | now apply sqrt_lt_R0 ].
  - apply total_vol_bound_small.
Qed.


Lemma approx_d2 :
  approx
    (let A := RoundedArith M in
     ((np_log (Some S / Some K) + (Some r - Some q + (Some sigma)**2 / num_two) * Some T)
      / (Some sigma * np_sqrt (Some T))
      - Some sigma * np_sqrt (Some T))%py)
    (d2 S K T r q sigma) (d2_bound u ul S K T r q sigma).
Proof.
  cbv zeta. unfold d2, d2_bound.
  apply (approx_sub M u ul ue ec HM); [ apply approx_d1 | apply approx_total_vol ].
Qed.

Lemma approx_discounted (X y : R) :
  approx (let A := RoundedArith M in (Some X * np_exp (- Some y * Some T))%py)
    (X * exp (- y * T)) (discounted_bound u ue T X y).
Proof.
  cbv zeta. unfold discounted_bound.
  apply (approx_mul M u ul ue ec HM); [ apply approx_exact | ].
  apply (approx_exp M u ul ue ec HM).
  apply (approx_mul M u ul ue ec HM); [ | apply approx_exact ].
  apply (approx_neg M (Some y)), approx_exact.
Qed.

Lemma call_approx :
  approx (@bs_call_div _ (RoundedArith M)
            (Some S) (Some K) (Some T) (Some r) (Some q) (Some sigma))
    (@bs_call_div _ RealArith S K T r q sigma)
    (call_tolerance u ul ue ec S K T r q sigma).
Proof.
  unfold bs_call_div, call_tolerance. cbv zeta.
  change (@norm_cdf R RealArith) with Gauss.cdf.
  apply (approx_sub M u ul ue ec HM).
  - apply (approx_mul M u ul ue ec HM); [ apply approx_discounted | ].
    apply (approx_cdf M u ul ue ec HM), approx_d1.
  - apply (approx_mul M u ul ue ec HM); [ apply approx_discounted | ].
    apply (approx_cdf M u ul ue ec HM), approx_d2.
Qed.

Lemma put_approx :
  approx (@bs_put_div _ (RoundedArith M)
            (Some S) (Some K) (Some T) (Some r) (Some q) (Some sigma))
    (@bs_put_div _ RealArith S K T r q sigma)
    (put_tolerance u ul ue ec S K T r q sigma).
Proof.
  unfold bs_put_div, put_tolerance. cbv zeta.
  change (@norm_cdf R RealArith) with Gauss.cdf.
  apply (approx_sub M u ul ue ec HM).
  - apply (approx_mul M u ul ue ec HM); [ apply approx_discounted | ].
    apply (approx_cdf M u ul ue ec HM), (approx_neg M), approx_d2.
  - apply (approx_mul M u ul ue ec HM); [ apply approx_discounted | ].
    apply (approx_cdf M u ul ue ec HM), (approx_neg M), approx_d1.
Qed.

End Pricers.

(** ** Evaluations that are defined *)

Section Defined.
Variable M : Machine.
Hypotheses (Hrange : forall z, in_range M z = true)
           (Hsign : forall z, 0 < z -> 0 < rnd M z)
           (Hexp : forall x, m_exp M x <> 0).
Variables S K T r q sigma : R.
Hypotheses (HS : 0 < S) (HK : 0 < K) (HT : 0 < T) (Hsig : 0 < sigma).

Lemma fin_total z : fin M z = Some z.
Proof. unfold fin. now rewrite Hrange. Qed.

Lemma add_total a b : @num_add _ (RoundedArith M) (Some a) (Some b) = Some (rnd M (a + b)).
Proof. apply fin_total. Qed.
Lemma sub_total a b : @num_sub _ (RoundedArith M) (Some a) (Some b) = Some (rnd M (a - b)).
Proof. apply fin_total. Qed.
Lemma mul_total a b : @num_mul _ (RoundedArith M) (Some a) (Some b) = Some (rnd M (a * b)).
Proof. apply fin_total. Qed.
Lemma div_total a b :
  0 < b -> @num_div _ (RoundedArith M) (Some a) (Some b) = Some (rnd M (a / b)).
Proof.
  intro Hb. simpl. destruct (Req_dec_T b 0) as [E | _]; [ lra | apply fin_total ].
Qed.
Lemma sqr_total a : @num_sqr _ (RoundedArith M) (Some a) = Some (rnd M (a * a)).
Proof. apply fin_total. Qed.
Lemma neg_total a : @num_neg _ (RoundedArith M) (Some a) = Some (- a).
Proof. reflexivity. Qed.
Lemma log_total a : 0 < a -> @np_log _ (RoundedArith M) (Some a) = Some (m_log M a).
Proof.
  intro Ha. simpl. destruct (Rlt_dec 0 a) as [_ | N]; [ apply fin_total | contradiction ].
Qed.
Lemma exp_total a : @np_exp _ (RoundedArith M) (Some a) = Some (m_exp M a).
Proof.
  simpl. destruct (Req_dec_T (m_exp M a) 0) as [E | _]; [ | apply fin_total ].
  now apply Hexp in E.
Qed.
Lemma sqrt_total a : 0 <= a -> @np_sqrt _ (RoundedArith M) (Some a) = Some (rnd M (sqrt a)).
Proof.
  intro Ha. simpl. destruct (Rle_dec 0 a) as [_ | N]; [ apply fin_total | contradiction ].
Qed.
Lemma cdf_total a : @norm_cdf _ (RoundedArith M) (Some a) = Some (m_cdf M a).
Proof. reflexivity. Qed.

Ltac positive :=
  repeat first [ lra | apply Hsign | apply Rdiv_lt_0_compat | apply Rmult_lt_0_compat
               | apply sqrt_lt_R0 | apply Rinv_0_lt_compat ].

Lemma call_defined :
  exists c, @bs_call_div _ (RoundedArith M)
              (Some S) (Some K) (Some T) (Some r) (Some q) (Some sigma) = Some c.
Proof.
  unfold bs_call_div. cbv zeta. change (@num_two _ (RoundedArith M)) with (Some 2).
  rewrite (div_total S K) by positive.
  rewrite log_total by positive.
  rewrite sqr_total, (div_total _ 2) by lra.
  rewrite !sub_total, !add_total, !neg_total, !mul_total, !add_total.
  rewrite (sqrt_total T) by lra.
  rewrite !mul_total, div_total by positive.
  rewrite !sub_total, !exp_total, !cdf_total, !mul_total, !sub_total.
  eauto.
Qed.

Lemma put_defined :
  exists p, @bs_put_div _ (RoundedArith M)
              (Some S) (Some K) (Some T) (Some r) (Some q) (Some sigma) = Some p.
Proof.
  unfold bs_put_div. cbv zeta. change (@num_two _ (RoundedArith M)) with (Some 2).
  rewrite (div_total S K) by positive.
  rewrite log_total by positive.
  rewrite sqr_total, (div_total _ 2) by lra.
  rewrite !sub_total, !add_total, !neg_total, !mul_total, !add_total.
  rewrite (sqrt_total T) by lra.
  rewrite !mul_total, div_total by positive.
  rewrite !sub_total, !neg_total, !exp_total, !cdf_total, !mul_total, !sub_total.
  eauto.
Qed.

End Defined.

Lemma skewed_accurate : Accurate skewed (/ 2 ^ 53) 0 0 0.
Proof.
  assert (H : 0 < / 2 ^ 53) by (apply Rinv_0_lt_compat, pow_lt; lra).
  assert (H8 : / 2 ^ 53 <= / 8).
  { apply Rinv_le_contravar; [ lra | ].
    change 53%nat with (3 + 50)%nat. rewrite pow_add.
    assert (1 <= 2 ^ 50) by (apply pow_R1_Rle; lra). nra. }
  split; try lra.
  - intro z. cbn [rnd skewed]. replace (z * (1 + / 2 ^ 53) - z) with (/ 2 ^ 53 * z) by ring.
    rewrite Rabs_mult, (Rabs_pos_eq (/ 2 ^ 53)) by lra. lra.
  - intros x _. cbn [m_log skewed]. rewrite Rminus_diag, Rabs_R0. lra.
  - intros x _ _. cbn [m_exp skewed]. rewrite Rminus_diag, Rabs_R0. pose proof (exp_pos x). lra.
  - intro x. cbn [m_cdf skewed]. rewrite Rminus_diag, Rabs_R0. lra.
Qed.

Lemma skewed_defined (S K T r q sigma : R) :
  0 < S -> 0 < K -> 0 < T -> 0 < sigma ->
  (exists c, @bs_call_div _ (RoundedArith skewed)
               (Some S) (Some K) (Some T) (Some r) (Some q) (Some sigma) = Some c)
  /\ (exists p, @bs_put_div _ (RoundedArith skewed)
                  (Some S) (Some K) (Some T) (Some r) (Some q) (Some sigma) = Some p).
Proof.
  intros HS HK HT Hsig.
  assert (H : 0 < / 2 ^ 53) by (apply Rinv_0_lt_compat, pow_lt; lra).
  assert (Hsign : forall z, 0 < z -> 0 < rnd skewed z).
  { intros z Hz. cbn [rnd skewed]. apply Rmult_lt_0_compat; lra. }
  assert (Hexp : forall x, m_exp skewed x <> 0).
  { intro x. cbn [m_exp skewed]. pose proof (exp_pos x). lra. }
  split.
  - now apply call_defined.
  - now apply put_defined.
Qed.

Lemma unit_roundoff_small : 0 <= / 2 ^ 53 <= 1e-15.
Proof.
  split.
  - left. apply Rinv_0_lt_compat, pow_lt. lra.
  - assert (H : 1e15 <= 2 ^ 53) by (simpl; lra).
    apply Rmult_le_reg_r with (2 ^ 53); [ apply pow_lt; lra | ].
    rewrite Rinv_l by (apply pow_nonzero; lra). lra.
Qed.

(** ** The size of the tolerance *)

(** At [S = K = 100], [T = 1], [r = 0.05], [q = 0], [sigma = 0.2], for
    errors of at most [1e-15] each (binary64 and its libraries are below),
    the tolerance of either price is under [2e-11]. *)

Lemma exp_small e : 0 <= e <= / 2 -> 1 <= exp e <= 1 + 2 * e.
Proof.
  intros [H0 H1]. pose proof (exp_ineq1_le (- e)) as H. rewrite exp_Ropp in H.
  pose proof (exp_ineq1_le e).
  pose proof (exp_pos e) as Hp.
  assert (exp e * (1 - e) <= 1).
  { replace 1 with (exp e * / exp e) at 2 by (field; lra).
    apply Rmult_le_compat_l; lra. }
  nra.
Qed.

Section Size.
Variables u ul ue ec : R.
Hypotheses (Hu : 0 <= u <= 1e-15) (Hul : 0 <= ul <= 1e-15)
           (Hue : 0 <= ue <= 1e-15) (Hec : 0 <= ec <= 1e-15).

Lemma total_vol_bound_size : 0 <= total_vol_bound u 1 (2 / 10) <= 1e-15.
Proof.
  unfold total_vol_bound, mul_bound, sqrt_bound. rewrite sqrt_1.
  rewrite !Rabs_pos_eq by lra. nra.
Qed.

Lemma d1_bound_size : 0 <= d1_bound u ul 100 100 1 (5 / 100) 0 (2 / 10) <= 60 * 1e-15.
Proof.
  pose proof total_vol_bound_size as Hv.
  unfold d1_bound. cbv zeta.
  set (ev := total_vol_bound u 1 (2 / 10)) in *. clearbody ev.
  replace (100 / 100) with 1 by field. rewrite ln_1, sqrt_1.
  set (e1 := div_bound u 100 0 100 0).
  assert (H1 : 0 <= e1 <= 1e-15).
  { unfold e1, div_bound.
    replace ((0 * 100 + Rabs 100 * 0) / (100 * (100 - 0))) with 0 by (field; lra).
    replace (100 / 100) with 1 by field. rewrite Rabs_R1. lra. }
  clearbody e1.
  set (e2 := log_bound ul 1 e1).
  assert (H2 : 0 <= e2 <= 3 * 1e-15).
  { unfold e2, log_bound. rewrite ln_1, Rabs_R0.
    replace (e1 / 1) with e1 by field. nra. }
  clearbody e2.
  set (e3 := mul_bound u (2 / 10) 0 (2 / 10) 0).
  assert (H3 : 0 <= e3 <= 1e-15).
  { unfold e3, mul_bound. rewrite !Rabs_pos_eq by lra. nra. }
  clearbody e3.
  set (e4 := div_bound u (2 / 10 * (2 / 10)) e3 2 0).
  assert (H4 : 0 <= e4 <= 1e-15).
  { unfold e4, div_bound. rewrite !Rabs_pos_eq by lra.
    replace ((e3 * 2 + 2 / 10 * (2 / 10) * 0) / (2 * (2 - 0))) with (e3 / 2) by field.
    nra. }
  clearbody e4.
  set (e5 := sub_bound u (5 / 100) 0 0 0).
  assert (H5 : 0 <= e5 <= 1e-15).
  { unfold e5, sub_bound. rewrite !Rabs_pos_eq by lra. nra. }
  clearbody e5.
  set (e6 := add_bound u (5 / 100 - 0) e5 (2 / 10 * (2 / 10) / 2) e4).
  assert (H6 : 0 <= e6 <= 3 * 1e-15).
  { unfold e6, add_bound. rewrite !Rabs_pos_eq by lra. nra. }
  clearbody e6.
  set (e7 := mul_bound u (5 / 100 - 0 + 2 / 10 * (2 / 10) / 2) e6 1 0).
  assert (H7 : 0 <= e7 <= 4 * 1e-15).
  { unfold e7, mul_bound. rewrite !Rabs_pos_eq by lra. nra. }
  clearbody e7.
  set (e8 := add_bound u 0 e2 ((5 / 100 - 0 + 2 / 10 * (2 / 10) / 2) * 1) e7).
  assert (H8 : 0 <= e8 <= 8 * 1e-15).
  { unfold e8, add_bound. rewrite !Rabs_pos_eq by lra. nra. }
  clearbody e8.
  unfold div_bound. rewrite !Rabs_pos_eq by lra.
  set (num := e8 * (2 / 10 * 1) + (0 + (5 / 100 - 0 + 2 / 10 * (2 / 10) / 2) * 1) * ev).
  set (den := 2 / 10 * 1 * (2 / 10 * 1 - ev)).
  assert (Hn : 0 <= num <= 2 * 1e-15) by (unfold num; nra).
  assert (Hd : 39 / 1000 <= den) by (unfold den; nra).
  assert (Hq : 0 <= num / den <= 52 * 1e-15 * (39 / 1000) / den).
  { split.
    - apply Rmult_le_pos; [ lra | left; apply Rinv_0_lt_compat; lra ].
    - unfold Rdiv. apply Rmult_le_compat_r; [ left; apply Rinv_0_lt_compat; lra | lra ]. }
  assert (Hq' : 52 * 1e-15 * (39 / 1000) / den <= 52 * 1e-15 * (39 / 1000) / (39 / 1000)).
  { unfold Rdiv. apply Rmult_le_compat_l; [ lra | ].
    apply Rinv_le_contravar; lra. }
  replace (52 * 1e-15 * (39 / 1000) / (39 / 1000)) with (52 * 1e-15) in Hq' by field.
  clearbody num den.
  set (qt := num / den) in *. clearbody qt.
  nra.
Qed.

Lemma d2_bound_size : 0 <= d2_bound u ul 100 100 1 (5 / 100) 0 (2 / 10) <= 70 * 1e-15.
Proof.
  pose proof total_vol_bound_size as Hv. pose proof d1_bound_size as H1.
  unfold d2_bound, sub_bound. rewrite sqrt_1.
  set (ev := total_vol_bound u 1 (2 / 10)) in *. clearbody ev.
  set (e1 := d1_bound u ul 100 100 1 (5 / 100) 0 (2 / 10)) in *. clearbody e1.
  assert (Hd : d1 100 100 1 (5 / 100) 0 (2 / 10) - 2 / 10 * 1 = 15 / 100).
  { unfold d1. replace (100 / 100) with 1 by field. rewrite ln_1, sqrt_1. field. }
  rewrite Hd, Rabs_pos_eq by lra. nra.
Qed.


Lemma discounted_bound_size y :
  0 <= y <= / 10 -> 0 <= discounted_bound u ue 1 100 y <= 600 * 1e-15.
Proof.
  intro Hy. unfold discounted_bound.
  set (et := mul_bound u (- y) 0 1 0).
  assert (Ht : 0 <= et <= 1e-15).
  { unfold et, mul_bound.
    replace (- y * 1) with (- y) by ring.
    rewrite Rabs_Ropp, Rabs_R1, (Rabs_pos_eq y) by lra. nra. }
  clearbody et.
  pose proof (exp_small et ltac:(lra)) as He.
  assert (HE : 0 < exp (- y * 1) <= 1).
  { split; [ apply exp_pos | ].
    assert (H : exp (- y * 1) <= exp 0).
    { destruct (proj1 Hy) as [Hp | <-].
      - left. apply exp_increasing. lra.
      - right. f_equal. ring. }
    now rewrite exp_0 in H. }
  set (ee := exp_bound ue (- y * 1) et).
  assert (Hee : 0 <= ee <= 4 * 1e-15).
  { unfold ee, exp_bound.
    set (E := exp (- y * 1)) in *. clearbody E.
    set (x := exp et) in *. clearbody x.
    assert (Hue_x : 0 <= ue * x <= 2 * 1e-15) by nra.
    assert (Hf : 0 <= (1 + ue) * x - 1 <= 4 * 1e-15) by nra.
    set (f := (1 + ue) * x - 1) in *. clearbody f. nra. }
  clearbody ee.
  set (E := exp (- y * 1)) in *. clearbody E.
  unfold mul_bound. rewrite Rabs_mult, !Rabs_pos_eq by lra.
  nra.
Qed.

Lemma price_tolerance_size (a b n1 n2 ea eb e1 e2 : R) :
  0 <= a <= 100 -> 0 <= b <= 100 -> 0 <= n1 <= 1 -> 0 <= n2 <= 1 ->
  0 <= ea <= 600 * 1e-15 -> 0 <= eb <= 600 * 1e-15 ->
  0 <= e1 <= 70 * 1e-15 -> 0 <= e2 <= 70 * 1e-15 ->
  sub_bound u (a * n1) (mul_bound u a ea n1 (cdf_bound ec e1))
              (b * n2) (mul_bound u b eb n2 (cdf_bound ec e2))
  <= 2e-11.
Proof.
  intros Ha Hb Hn1 Hn2 Hea Heb He1 He2.
  unfold cdf_bound.
  set (c1 := ec + e1). assert (Hc1 : 0 <= c1 <= 71 * 1e-15) by (unfold c1; lra).
  set (c2 := ec + e2). assert (Hc2 : 0 <= c2 <= 71 * 1e-15) by (unfold c2; lra).
  clearbody c1 c2.
  set (m1 := mul_bound u a ea n1 c1).
  assert (Hm1 : 0 <= m1 <= 8000 * 1e-15).
  { unfold m1, mul_bound. rewrite Rabs_mult, !Rabs_pos_eq by lra.
    assert (0 <= a * c1 <= 100 * (71 * 1e-15)) by nra.
    assert (0 <= n1 * ea <= 600 * 1e-15) by nra.
    assert (0 <= ea * c1 <= 1e-15) by nra.
    assert (0 <= a * n1 <= 100) by nra.
    nra. }
  set (m2 := mul_bound u b eb n2 c2).
  assert (Hm2 : 0 <= m2 <= 8000 * 1e-15).
  { unfold m2, mul_bound. rewrite Rabs_mult, !Rabs_pos_eq by lra.
    assert (0 <= b * c2 <= 100 * (71 * 1e-15)) by nra.
    assert (0 <= n2 * eb <= 600 * 1e-15) by nra.
    assert (0 <= eb * c2 <= 1e-15) by nra.
    assert (0 <= b * n2 <= 100) by nra.
    nra. }
  clearbody m1 m2.
  unfold sub_bound.
  assert (Rabs (a * n1 - b * n2) <= 100).
  { apply Rabs_le. nra. }
  nra.
Qed.

Lemma cdf_unit x : 0 <= Gauss.cdf x <= 1.
Proof. pose proof (Gauss.cdf_pos x). pose proof (Gauss.cdf_lt_1 x). lra. Qed.

Lemma discounted_unit y : 0 <= y -> 0 <= 100 * exp (- y * 1) <= 100.
Proof.
  intro Hy. pose proof (exp_pos (- y * 1)).
  assert (exp (- y * 1) <= 1).
  { assert (H' : exp (- y * 1) <= exp 0).
    { destruct Hy as [Hp | <-].
      - left. apply exp_increasing. lra.
      - right. f_equal. ring. }
    now rewrite exp_0 in H'. }
  lra.
Qed.

Lemma call_tolerance_size :
  call_tolerance u ul ue ec 100 100 1 (5 / 100) 0 (2 / 10) <= 2e-11.
Proof.
  unfold call_tolerance.
  apply price_tolerance_size;
    try apply cdf_unit; try (apply discounted_unit; lra);
    try (apply discounted_bound_size; lra);
    [ pose proof d1_bound_size; lra | apply d2_bound_size ].
Qed.

Lemma put_tolerance_size :
  put_tolerance u ul ue ec 100 100 1 (5 / 100) 0 (2 / 10) <= 2e-11.
Proof.
  unfold put_tolerance.
  apply price_tolerance_size;
    try apply cdf_unit; try (apply discounted_unit; lra);
    try (apply discounted_bound_size; lra);
    [ apply d2_bound_size | pose proof d1_bound_size; lra ].
Qed.

End Size.

(** ** The claims *)

(** C6, amended.  Put-call parity within a stated tolerance: for
    [S, K, T, sigma > 0] and all [r], [q], when the evaluations of the call
    and of the put stay finite and normal, the difference of the two
    computed prices is within [call_tolerance + put_tolerance] of
    [S e^(-qT) - K e^(-rT)]. *)
Theorem parity_within_tolerance (M : Machine) (u ul ue ec S K T r q sigma c p : R) :
  Accurate M u ul ue ec ->
  0 < S -> 0 < K -> 0 < T -> 0 < sigma ->
  @bs_call_div _ (RoundedArith M)
    (Some S) (Some K) (Some T) (Some r) (Some q) (Some sigma) = Some c ->
  @bs_put_div _ (RoundedArith M)
    (Some S) (Some K) (Some T) (Some r) (Some q) (Some sigma) = Some p ->
  Rabs (c - p - (S * exp (- q * T) - K * exp (- r * T)))
  <= call_tolerance u ul ue ec S K T r q sigma + put_tolerance u ul ue ec S K T r q sigma.
Proof.
  intros HM HS HK HT Hsig Hc Hp.
  pose proof (call_approx M u ul ue ec HM S K T r q sigma HS HK HT Hsig c Hc) as Ec.
  pose proof (put_approx M u ul ue ec HM S K T r q sigma HS HK HT Hsig p Hp) as Ep.
  rewrite <- (PricerProperties.call_minus_put S K T r q sigma).
  replace (c - p - (bs_call_div S K T r q sigma - bs_put_div S K T r q sigma))
    with ((c - bs_call_div S K T r q sigma) + - (p - bs_put_div S K T r q sigma)) by ring.
  eapply Rle_trans; [ apply Rabs_triang | ]. rewrite Rabs_Ropp. lra.
Qed.

Lemma parity_within_tolerance_witness :
  exists c p,
    @bs_call_div _ (RoundedArith skewed)
      (Some 100) (Some 100) (Some 1) (Some (5 / 100)) (Some 0) (Some (2 / 10)) = Some c
    /\ @bs_put_div _ (RoundedArith skewed)
         (Some 100) (Some 100) (Some 1) (Some (5 / 100)) (Some 0) (Some (2 / 10)) = Some p
    /\ Rabs (c - p - (100 * exp (- 0 * 1) - 100 * exp (- (5 / 100) * 1))) <= 4e-11.
Proof.
  destruct (skewed_defined 100 100 1 (5 / 100) 0 (2 / 10)) as [[c Hc] [p Hp]]; try lra.
  exists c, p. split; [ exact Hc | split; [ exact Hp | ] ].
  pose proof (parity_within_tolerance skewed (/ 2 ^ 53) 0 0 0 100 100 1 (5 / 100) 0
                (2 / 10) c p skewed_accurate
                ltac:(lra) ltac:(lra) ltac:(lra) ltac:(lra) Hc Hp) as H.
  pose proof (call_tolerance_size (/ 2 ^ 53) 0 0 0 unit_roundoff_small
                ltac:(lra) ltac:(lra) ltac:(lra)).
  pose proof (put_tolerance_size (/ 2 ^ 53) 0 0 0 unit_roundoff_small
                ltac:(lra) ltac:(lra) ltac:(lra)).
  lra.
Defined.



(** C8, amended.  The call price is increasing in [sigma] up to rounding:
    for [S, K, T > 0] and volatilities [0 < s1 < s2] (those of the bracket
    among them), when the two evaluations stay finite and normal, the price
    computed at [s2] is above the price computed at [s1] less the two
    tolerances; and two volatilities with the same computed price, as two
    roots of the objective for one quote are, have exact prices no further
    apart than the two tolerances. *)
Theorem call_increasing_up_to_rounding
    (M : Machine) (u ul ue ec S K T r q s1 s2 c1 c2 : R) :
  Accurate M u ul ue ec ->
  0 < S -> 0 < K -> 0 < T -> 0 < s1 -> s1 < s2 ->
  @bs_call_div _ (RoundedArith M)
    (Some S) (Some K) (Some T) (Some r) (Some q) (Some s1) = Some c1 ->
  @bs_call_div _ (RoundedArith M)
    (Some S) (Some K) (Some T) (Some r) (Some q) (Some s2) = Some c2 ->
  c1 - (call_tolerance u ul ue ec S K T r q s1 + call_tolerance u ul ue ec S K T r q s2)
    < c2
  /\ (c1 = c2 ->
      @bs_call_div _ RealArith S K T r q s2 - @bs_call_div _ RealArith S K T r q s1
      <= call_tolerance u ul ue ec S K T r q s1 + call_tolerance u ul ue ec S K T r q s2).
Proof.
  intros HM HS HK HT H1 H12 Hc1 Hc2.
  pose proof (call_approx M u ul ue ec HM S K T r q s1 HS HK HT H1 c1 Hc1) as E1.
  pose proof (call_approx M u ul ue ec HM S K T r q s2 HS HK HT ltac:(lra) c2 Hc2) as E2.
  apply Gauss.Rabs_le_inv in E1. apply Gauss.Rabs_le_inv in E2.
  pose proof (PricerProperties.bs_call_div_incr S K T r q s1 s2 HS HK HT H1 H12).
  split; [ lra | intros ->; lra ].
Qed.

Lemma call_increasing_up_to_rounding_witness :
  exists c1 c2,
    @bs_call_div _ (RoundedArith skewed)
      (Some 100) (Some 100) (Some 1) (Some (5 / 100)) (Some 0) (Some (2 / 10)) = Some c1
    /\ @bs_call_div _ (RoundedArith skewed)
         (Some 100) (Some 100) (Some 1) (Some (5 / 100)) (Some 0) (Some (3 / 10)) = Some c2
    /\ c1 - (call_tolerance (/ 2 ^ 53) 0 0 0 100 100 1 (5 / 100) 0 (2 / 10)
             + call_tolerance (/ 2 ^ 53) 0 0 0 100 100 1 (5 / 100) 0 (3 / 10)) < c2.
Proof.
  destruct (skewed_defined 100 100 1 (5 / 100) 0 (2 / 10)) as [[c1 Hc1] _]; try lra.
  destruct (skewed_defined 100 100 1 (5 / 100) 0 (3 / 10)) as [[c2 Hc2] _]; try lra.
  exists c1, c2. split; [ exact Hc1 | split; [ exact Hc2 | ] ].
  apply (call_increasing_up_to_rounding skewed (/ 2 ^ 53) 0 0 0 100 100 1 (5 / 100) 0
           (2 / 10) (3 / 10) c1 c2 skewed_accurate); try lra; assumption.
Defined.

End PricerRounding.

(** * Properties of the pricers, on floats *)

Module PricerOnFloats.

(** At expiry and at the money the quotient [d1] is 0/0: whatever library
    computes [log 1 = 0], [exp (-0) = 1] and maps NaN to NaN, as numpy and
    scipy do, both prices are NaN. *)
Lemma price_at_expiry_is_nan (L : Libm) :
  libm_log L 1%float = 0%float -> libm_exp L (-0)%float = 1%float ->
  libm_cdf L nan = nan ->
  (@bs_call_div _ (FloatArith L) 100 100 0 0 0 0.2 = nan
   /\ @bs_put_div _ (FloatArith L) 100 100 0 0 0 0.2 = nan)%float.
Proof.
  intros Hlog Hexp Hcdf. cbv [nan] in Hcdf. cbn in Hexp.
  unfold bs_call_div, bs_put_div. cbn.
  rewrite Hlog. cbn. rewrite Hcdf, Hexp. split; reflexivity.
Qed.


(** C6, the input that refutes it as stated: with [r = -800] the factor
    [e^(-rT)] overflows; the call is NaN, the put is infinite, and their
    difference is within no tolerance, not even an infinite one, of
    [S e^(-qT) - K e^(-rT)]. *)
Lemma parity_lost_to_overflow :
  (let c := @bs_call_div _ (FloatArith libm_model) 100 100 1 (-800) 0 0.2 in
  let p := @bs_put_div _ (FloatArith libm_model) 100 100 1 (-800) 0 0.2 in
  let rhs := 100 * libm_exp libm_model (- 0 * 1)
             - 100 * libm_exp libm_model (- (-800) * 1) in
  c = nan /\ p = infinity /\ rhs = neg_infinity
  /\ (abs (c - p - rhs) <=? infinity) = false)%float.
Proof. cbv zeta. repeat split; vm_compute; reflexivity. Qed.

(** C8, the input that refutes it as stated: at [S = K = 100], [T = 1],
    [r = 0.05], [q = 0] the two distribution values are both [1.0] for
    small volatilities, and the price is the same at [sigma = 0.001] and at
    [sigma = 0.006], both inside the bracket: the price is not strictly
    increasing, and the objective of a quote at that price vanishes at
    both. *)
Lemma call_price_plateau :
  (let price := @bs_call_div _ (FloatArith libm_model) 100 100 1 0.05 0 in
  (bracket_lo <? 0.001) = true /\ (0.001 <? 0.006) = true /\ (0.006 <? bracket_hi) = true
  /\ (price 0.001 <? price 0.006) = false
  /\ price 0.001 - 4.8770575499293187 = 0
  /\ price 0.006 - 4.8770575499293187 = 0)%float.
Proof. cbv zeta. repeat split; vm_compute; reflexivity. Qed.

(** Rounding alone makes a price negative: with a strike two units in the
    last place above the spot and a maturity of [1e-34], [d1] and [d2] are
    the same float, and the call price is the difference of the rounded
    products [S N(d1)] and [K N(d1)]. *)
Lemma call_price_negative_by_rounding :
  (@bs_call_div _ (FloatArith libm_model) 100 100.00000000000003 1e-34 0 0 1 <? 0)%float
  = true.
Proof. vm_compute. reflexivity. Qed.

End PricerOnFloats.

(** * Properties of the solver, on floats *)

Module SolverProperties.

Lemma brent_evaluates_lower_end_first : evaluates_lower_end_first scipy_model.
Proof.
  intros f a b t e Hfa. simpl.
  unfold Brent.brentq, Brent.wrap_nan_raise, bind. rewrite Hfa. reflexivity.
Qed.

(** Float comparisons with zero, from the specification of the
    primitive operations: a positive float is not [<= 0], and conversely
    unless it is NaN. *)
Lemma positive_not_nonpositive (x : float) :
  (0 <? x)%float = true -> (x <=? 0)%float = false.
Proof.
  rewrite ltb_spec, leb_spec.
  change (Prim2SF 0) with (S754_zero false).
  destruct (Prim2SF x) as [s | s | | s m e]; try destruct s;
    cbv [SFltb SFleb SFcompare]; congruence.
Qed.

Lemma not_nonpositive_positive (x : float) :
  (x <=? 0)%float = false -> is_nan x = false -> (0 <? x)%float = true.
Proof.
  unfold is_nan. rewrite ltb_spec, leb_spec, FloatAxioms.eqb_spec.
  change (Prim2SF 0) with (S754_zero false).
  destruct (Prim2SF x) as [s | s | | s m e]; try destruct s;
    cbv [SFltb SFleb SFeqb SFcompare negb]; congruence.
Qed.

(** A quote with [T > 0] and [price > 0] passes the guard of line 60. *)
Lemma valid_quote_not_rejected (price T : float) :
  (0 <? T)%float = true -> (0 <? price)%float = true -> rejected price T = false.
Proof.
  intros HT Hp. unfold rejected.
  now rewrite (positive_not_nonpositive T HT), (positive_not_nonpositive price Hp).
Qed.

(** The module binds no [bs_call_price]. *)
Lemma bs_call_price_unbound (L : Libm) : module_globals L !! "bs_call_price" = None.
Proof. vm_compute. reflexivity. Qed.

Lemma objective_function_unbound (L : Libm) (price S K T r q sigma : float) :
  objective_function (module_globals L) price S K T r q sigma
  = ([], Raise (NameError "bs_call_price")).
Proof.
  unfold objective_function, load_global. rewrite bs_call_price_unbound. reflexivity.
Qed.

Lemma solver_raises_name_error (I : Imports) (price S K T r q : float) :
  evaluates_lower_end_first I ->
  rejected price T = false ->
  implied_volatility I (module_globals (libm I)) price S K T r q
  = ([SolverCalled bracket_lo bracket_hi], Raise (NameError "bs_call_price")).
Proof.
  intros HI Hguard. unfold implied_volatility. unfold rejected in Hguard.
  rewrite Hguard.
  rewrite (HI _ bracket_lo bracket_hi [] (NameError "bs_call_price"))
    by apply objective_function_unbound.
  reflexivity.
Qed.

Lemma solver_short_circuit (I : Imports) (G : namespace) (price S K T r q : float) :
  rejected price T = true ->
  implied_volatility I G price S K T r q = ([], Return nan).
Proof.
  intro Hguard. unfold implied_volatility. unfold rejected in Hguard.
  rewrite Hguard. reflexivity.
Qed.

(** On an input that passes the guard the root finder is called, and
    that call opens the record of the run. *)
Lemma search_attempted_on_valid_input (I : Imports) (G : namespace)
    (price S K T r q : float) :
  rejected price T = false ->
  exists t o, implied_volatility I G price S K T r q
              = (SolverCalled bracket_lo bracket_hi :: t, o).
Proof.
  intro Hguard. unfold implied_volatility. unfold rejected in Hguard.
  rewrite Hguard. unfold try_except, bind, tell.
  destruct (brentq I (objective_function G price S K T r q) bracket_lo bracket_hi)
    as [t [y | e]]; [ now eauto | ].
  destruct e; simpl; eauto.
Qed.

Lemma solver_returns_what_brentq_returns (I : Imports) (G : namespace)
    (price S K T r q : float) (t : list event) (x : float) :
  implied_volatility I G price S K T r q = (t, Return x) ->
  is_nan x = false ->
  exists t', brentq I (objective_function G price S K T r q) bracket_lo bracket_hi
             = (t', Return x).
Proof.
  unfold implied_volatility. intros Hr Hx.
  destruct ((T <=? 0)%float || (price <=? 0)%float).
  - injection Hr as _ <-. discriminate Hx.
  - unfold try_except, bind, tell in Hr.
    destruct (brentq I (objective_function G price S K T r q) bracket_lo bracket_hi)
      as [t' [y | e]].
    + injection Hr as _ <-. exists t'. reflexivity.
    + destruct e; simpl in Hr; try discriminate Hr;
        injection Hr as _ <-; discriminate Hx.
Qed.

(** C1 (the code departs from it).  For [T > 0] and a price [p > 0]
    computed by [bs_call_div] at any volatility [sigma0],
    [implied_volatility p S K T r q] does not return a volatility near
    [sigma0]: the first evaluation of the objective raises
    [NameError: bs_call_price], which the [except] clause does not handle. *)
Theorem round_trip_raises_name_error (I : Imports) (S K T r q sigma0 : float) :
  let p := @bs_call_div _ (FloatArith (libm I)) S K T r q sigma0 in
  evaluates_lower_end_first I ->
  (0 <? T)%float = true -> (0 <? p)%float = true ->
  implied_volatility I (module_globals (libm I)) p S K T r q
  = ([SolverCalled bracket_lo bracket_hi], Raise (NameError "bs_call_price")).
Proof.
  intros p HI HT Hp. apply solver_raises_name_error; [ exact HI | ].
  now apply valid_quote_not_rejected.
Qed.

Lemma round_trip_raises_name_error_witness :
  (implied_volatility scipy_model (module_globals libm_model)
     (@bs_call_div _ (FloatArith libm_model) 100 100 1 0.05 0 0.2) 100 100 1 0.05 0)%float
  = ([SolverCalled bracket_lo bracket_hi], Raise (NameError "bs_call_price")).
Proof.
  apply (round_trip_raises_name_error scipy_model 100 100 1 0.05 0 0.2)%float.
  - exact brent_evaluates_lower_end_first.
  - reflexivity.
  - vm_compute. reflexivity.
Defined.

(** C2 (the code departs from it).  [implied_volatility] propagates an
    exception to its caller exactly when the input passes the guard of line
    60: on every quote with [T > 0] and [price > 0] the call ends in
    [NameError], and only the rejected inputs get the NaN outcome. *)
Theorem name_error_reaches_caller (I : Imports) (price S K T r q : float) :
  evaluates_lower_end_first I ->
  (exists t e, implied_volatility I (module_globals (libm I)) price S K T r q
               = (t, Raise e))
  <-> rejected price T = false.
Proof.
  intro HI. split.
  - intros [t [e Hr]].
    destruct (rejected price T) eqn:Hg; [ | reflexivity ].
    rewrite (solver_short_circuit _ _ _ _ _ _ _ _ Hg) in Hr. discriminate Hr.
  - intro Hg. eexists. eexists. apply solver_raises_name_error; assumption.
Qed.

Lemma name_error_reaches_caller_witness :
  (exists t e, (implied_volatility scipy_model (module_globals libm_model)
                  10.4506 100 100 1 0.05 0)%float = (t, Raise e))
  <-> rejected 10.4506%float 1%float = false.
Proof.
  apply (name_error_reaches_caller scipy_model), brent_evaluates_lower_end_first.
Defined.

(** C3 (the code departs from it).  The solver has no option-type
    parameter and its objective resolves one name only, [bs_call_price]:
    whatever the put pricers [bs_put_div] and [bs_put_no_div] are bound to,
    the outcome of [implied_volatility] is the same, so no put formula is
    ever inverted. *)
Theorem solver_ignores_put_pricers (I : Imports) (G : namespace) (f g : pyobj)
    (price S K T r q : float) :
  implied_volatility I (<[ "bs_put_div" := f ]> (<[ "bs_put_no_div" := g ]> G))
    price S K T r q
  = implied_volatility I G price S K T r q.
Proof.
  unfold implied_volatility, objective_function, load_global.
  rewrite !lookup_insert_ne by discriminate. reflexivity.
Qed.

(** C4.  When [T <= 0] or [price <= 0], [implied_volatility] returns NaN
    at once: the run records no call, neither of a pricer nor of the root
    finder, whatever the namespace and the imported functions are. *)
Theorem invalid_input_short_circuit (I : Imports) (G : namespace)
    (price S K T r q : float) :
  (T <=? 0)%float = true \/ (price <=? 0)%float = true ->
  implied_volatility I G price S K T r q = ([], Return nan).
Proof.
  intro H. apply solver_short_circuit. unfold rejected.
  destruct H as [H | H]; rewrite H; [ reflexivity | apply orb_true_r ].
Qed.

Lemma invalid_input_short_circuit_witness :
  (implied_volatility scipy_model (module_globals libm_model)
     10.4506 100 100 (-0.01) 0.05 0)%float = ([], Return nan)
  /\ (implied_volatility scipy_model (module_globals libm_model)
        0 100 100 1 0.05 0)%float = ([], Return nan).
Proof.
  split.
  - apply invalid_input_short_circuit. left. reflexivity.
  - apply invalid_input_short_circuit. right. reflexivity.
Defined.



(** C10.  "No solution" is the float NaN on both failure paths: when the
    guard of line 60 rejects the input, and when [brentq] raises
    [ValueError] or [RuntimeError]; the result is then an ordinary [Return]
    of a float, told from a volatility by [is_nan] alone. *)
Theorem no_solution_is_nan (I : Imports) (G : namespace) (price S K T r q : float)
    (t : list event) (e : exn) :
  rejected price T = true
  \/ (rejected price T = false
      /\ brentq I (objective_function G price S K T r q) bracket_lo bracket_hi
         = (t, Raise e)
      /\ (e = ValueError \/ e = RuntimeError)) ->
  exists t', implied_volatility I G price S K T r q = (t', Return nan)
             /\ is_nan nan = true.
Proof.
  intros [Hg | [Hg [Hb He]]].
  - exists []. split; [ now apply solver_short_circuit | reflexivity ].
  - exists (SolverCalled bracket_lo bracket_hi :: t).
    split; [ | reflexivity ].
    unfold implied_volatility. unfold rejected in Hg. rewrite Hg.
    unfold try_except, bind, tell. rewrite Hb.
    destruct He as [-> | ->]; simpl; rewrite !app_nil_r; reflexivity.
Qed.

Lemma no_solution_is_nan_witness :
  (exists t', (implied_volatility scipy_model (with_call_price libm_model)
                 150 100 100 1 0.05 0)%float = (t', Return nan)
              /\ is_nan nan = true)
  /\ (exists t', (implied_volatility scipy_model (with_call_price libm_model)
                    10.4506 100 100 0 0.05 0)%float = (t', Return nan)
                 /\ is_nan nan = true).
Proof.
  split.
  - apply (no_solution_is_nan scipy_model (with_call_price libm_model)
             150 100 100 1 0.05 0
             (fst (brentq scipy_model
                     (objective_function (with_call_price libm_model) 150 100 100 1 0.05 0)
                     bracket_lo bracket_hi))
             ValueError)%float.
    right. split; [ reflexivity | split; [ vm_compute; reflexivity | left; reflexivity ] ].
  - apply (no_solution_is_nan scipy_model (with_call_price libm_model)
             10.4506 100 100 0 0.05 0 [] ValueError)%float.
    left. reflexivity.
Defined.

(** X3.  With the module as written, no call of [implied_volatility] returns a
    volatility: whenever it returns, the value is NaN. *)
Theorem module_never_returns_volatility (I : Imports) (price S K T r q : float)
    (t : list event) (x : float) :
  evaluates_lower_end_first I ->
  implied_volatility I (module_globals (libm I)) price S K T r q = (t, Return x) ->
  is_nan x = true.
Proof.
  intros HI Hr.
  destruct (rejected price T) eqn:Hg.
  - rewrite (solver_short_circuit _ _ _ _ _ _ _ _ Hg) in Hr.
    injection Hr as _ <-. reflexivity.
  - rewrite (solver_raises_name_error _ _ _ _ _ _ _ HI Hg) in Hr. discriminate Hr.
Qed.

Lemma module_never_returns_volatility_witness : is_nan nan = true.
Proof.
  apply (module_never_returns_volatility scipy_model 10.4506 100 100 (-0.01) 0.05 0 [])%float.
  - exact brent_evaluates_lower_end_first.
  - reflexivity.
Defined.

Lemma not_nonpositive_iff (x : float) :
  (x <=? 0)%float = false <-> positive_or_nan x = true.
Proof.
  unfold positive_or_nan, is_nan. rewrite ltb_spec, leb_spec, FloatAxioms.eqb_spec.
  change (Prim2SF 0) with (S754_zero false).
  destruct (Prim2SF x) as [s | s | | s m e]; try destruct s;
    cbv [SFltb SFleb SFeqb SFcompare negb orb]; try (split; congruence).
  all: rewrite ?Pos.compare_refl, ?Z.compare_refl; cbn; split; congruence.
Qed.

(** X18.  The root finder is called exactly when each of [T] and [price]
    is positive or NaN: the guard of line 60 lets NaN through. *)
Theorem search_attempted_iff (I : Imports) (G : namespace) (price S K T r q : float) :
  (exists t o, implied_volatility I G price S K T r q
               = (SolverCalled bracket_lo bracket_hi :: t, o))
  <-> positive_or_nan T && positive_or_nan price = true.
Proof.
  rewrite andb_true_iff, <- !not_nonpositive_iff. split.
  - intros [t [o H]].
    destruct (rejected price T) eqn:E.
    + rewrite (solver_short_circuit I G price S K T r q E) in H. discriminate H.
    + unfold rejected in E. apply orb_false_elim in E. exact E.
  - intros [HT Hp]. apply search_attempted_on_valid_input.
    unfold rejected. now rewrite HT, Hp.
Qed.

Lemma search_attempted_iff_witness :
  exists t o, implied_volatility scipy_model (module_globals libm_model)
                nan 100 100 1 0.05 0
              = (SolverCalled bracket_lo bracket_hi :: t, o).
Proof.
  apply (proj2 (search_attempted_iff scipy_model (module_globals libm_model)
                  nan 100 100 1 0.05 0)).
  vm_compute. reflexivity.
Defined.

End SolverProperties.

(** * Properties of the script *)

Module ScriptProperties.
Import Script ScriptVocabulary.

Lemma append_puts_app (d : Z) (puts : list quote) (data : list entry) :
  append_puts d puts data = data ++ map (entry_of d) puts.
Proof.
  unfold append_puts. revert data.
  induction puts as [| q puts IH]; intro data; simpl.
  - now rewrite app_nil_r.
  - rewrite IH, <- app_assoc. reflexivity.
Qed.

Lemma fold_calls (d : Z) (puts calls : list quote) (data : list entry * list entry) :
  fold_left
    (fun data q => (fst data ++ [entry_of d q], append_puts d puts (snd data)))
    calls data
  = (fst data ++ map (entry_of d) calls,
     snd data ++ flat_map (fun _ => map (entry_of d) puts) calls).
Proof.
  revert data. induction calls as [| q calls IH]; intros [cd pd]; simpl.
  - now rewrite !app_nil_r.
  - rewrite IH. simpl. rewrite append_puts_app, <- !app_assoc. reflexivity.
Qed.

Lemma append_chain_spec (d : Z) (calls puts : list quote) (data : list entry * list entry) :
  append_chain d calls puts data
  = (fst data ++ map (entry_of d) (List.filter positive_quote calls),
     snd data ++ flat_map (fun _ => map (entry_of d) (List.filter positive_quote puts))
                          (List.filter positive_quote calls)).
Proof. unfold append_chain. apply fold_calls. Qed.

(** The loop over the expirations always runs to its end, whatever the
    provider answers. *)
Lemma collect_spec (P : Provider) (exp_dates : list Z) (data : list entry * list entry) :
  snd (collect P exp_dates data)
  = Done (fst data ++ call_data P exp_dates, snd data ++ put_data P exp_dates).
Proof.
  revert data. induction exp_dates as [| d ds IH]; intros [cd pd].
  - simpl. now rewrite !app_nil_r.
  - unfold call_data, put_data in *. simpl.
    unfold calls_at at 1 3, puts_at at 1. 
    destruct (ticker_option_chain P d) as [[calls puts] | e]; simpl.
    + specialize (IH (append_chain d calls puts (cd, pd))).
      destruct (collect P ds (append_chain d calls puts (cd, pd))) as [t o].
      simpl in *. rewrite IH, append_chain_spec. simpl.
      now rewrite <- !app_assoc.
    + specialize (IH (cd, pd)).
      destruct (collect P ds (cd, pd)) as [t o]. simpl in *. exact IH.
Qed.

Lemma collect_done (P : Provider) (exp_dates : list Z) :
  exists t, collect P exp_dates ([], [])
            = (t, Done (call_data P exp_dates, put_data P exp_dates)).
Proof.
  pose proof (collect_spec P exp_dates ([], [])) as H.
  destruct (collect P exp_dates ([], [])) as [t o]. simpl in H. subst o.
  exists t. reflexivity.
Qed.

Lemma collect_result (P : Provider) (exp_dates : list Z) t data :
  collect P exp_dates ([], []) = (t, Done data) ->
  data = (call_data P exp_dates, put_data P exp_dates).
Proof.
  intro H. destruct (collect_done P exp_dates) as [t' H'].
  rewrite H in H'. now inversion H'.
Qed.

Lemma length_flat_map {A B} (f : A -> list B) (l : list A) :
  length (flat_map f l) = list_sum (map (fun a => length (f a)) l).
Proof.
  induction l as [| a l IH]; simpl; [ reflexivity | ].
  now rewrite length_app, IH.
Qed.

Lemma length_repeat_block {A B} (block : list B) (l : list A) :
  length (flat_map (fun _ => block) l) = (length l * length block)%nat.
Proof.
  induction l as [| a l IH]; simpl; [ reflexivity | ].
  rewrite length_app, IH. lia.
Qed.

(** X4.  The loops of lines 152-190 always run to their end, and leave in
    [option_call_data] the kept calls of every expiration in order, and in
    [option_put_data] the kept puts of an expiration once for each kept
    call of that expiration; an expiration whose chain cannot be fetched
    contributes nothing. *)
Theorem loops_record_chains (P : Provider) (exp_dates : list Z) :
  snd (collect P exp_dates ([], []))
  = Done (call_data P exp_dates, put_data P exp_dates).
Proof. apply (collect_spec P exp_dates ([], [])). Qed.

(** X5.  The number of entries the loops record: one per kept call, and
    for the puts the sum over the expirations of (kept calls) x (kept
    puts), the put loop being nested in the call loop. *)
Theorem puts_recorded_once_per_call (P : Provider) (exp_dates : list Z)
    (t : list step) (data : list entry * list entry) :
  collect P exp_dates ([], []) = (t, Done data) ->
  length (fst data) = list_sum (map (fun d => length (calls_at P d)) exp_dates)
  /\ length (snd data)
     = list_sum (map (fun d => (length (calls_at P d) * length (puts_at P d))%nat)
                     exp_dates).
Proof.
  intro H. apply collect_result in H. subst data. simpl.
  unfold call_data, put_data. rewrite !length_flat_map. split.
  - f_equal. apply map_ext. intro d. apply length_map.
  - f_equal. apply map_ext. intro d.
    rewrite length_repeat_block, length_map. reflexivity.
Qed.

Lemma puts_recorded_once_per_call_witness :
  length (call_data demo_provider [10; 30]%Z) = 2%nat
  /\ length (put_data demo_provider [10; 30]%Z) = 4%nat.
Proof.
  apply (puts_recorded_once_per_call demo_provider [10; 30]%Z
           (fst (collect demo_provider [10; 30]%Z ([], [])))
           (call_data demo_provider [10; 30]%Z, put_data demo_provider [10; 30]%Z)).
  vm_compute. reflexivity.
Defined.

Lemma in_call_data (P : Provider) (exp_dates : list Z) (e : entry) :
  In e (call_data P exp_dates) ->
  exists d q, In d exp_dates /\ In q (calls_at P d) /\ e = entry_of d q.
Proof.
  unfold call_data. rewrite in_flat_map. intros [d [Hd He]].
  apply in_map_iff in He. destruct He as [q [He Hq]]. eauto.
Qed.

Lemma in_put_data (P : Provider) (exp_dates : list Z) (e : entry) :
  In e (put_data P exp_dates) ->
  exists d c q, In d exp_dates /\ In c (calls_at P d) /\ In q (puts_at P d)
                /\ e = entry_of d q.
Proof.
  unfold put_data. rewrite in_flat_map. intros [d [Hd He]].
  apply in_flat_map in He. destruct He as [c [Hc He]].
  apply in_map_iff in He. destruct He as [q [He Hq]].
  exists d, c, q. auto.
Qed.

Lemma calls_at_positive (P : Provider) (d : Z) (q : quote) :
  In q (calls_at P d) -> positive_quote q = true.
Proof.
  unfold calls_at. destruct (ticker_option_chain P d) as [[cs ps] | e].
  - intro H. apply filter_In in H. tauto.
  - intros [].
Qed.

Lemma puts_at_positive (P : Provider) (d : Z) (q : quote) :
  In q (puts_at P d) -> positive_quote q = true.
Proof.
  unfold puts_at. destruct (ticker_option_chain P d) as [[cs ps] | e].
  - intro H. apply filter_In in H. tauto.
  - intros [].
Qed.

Lemma entry_of_well_formed (exp_dates : list Z) (d : Z) (q : quote) :
  In d exp_dates -> positive_quote q = true -> well_formed exp_dates (entry_of d q).
Proof.
  intros Hd Hq. unfold positive_quote in Hq. apply andb_prop in Hq.
  unfold well_formed, entry_of. simpl. tauto.
Qed.

(** X6.  Every entry of either list has one of the looped-over dates as
    its expiration, a bid and an ask that are positive, and the mean of the
    two as its mid price. *)
Theorem recorded_entries_well_formed (P : Provider) (exp_dates : list Z)
    (t : list step) (data : list entry * list entry) (e : entry) :
  collect P exp_dates ([], []) = (t, Done data) ->
  In e (fst data ++ snd data) ->
  well_formed exp_dates e.
Proof.
  intros H He. apply collect_result in H. subst data. simpl in He.
  apply in_app_or in He. destruct He as [He | He].
  - apply in_call_data in He. destruct He as [d [q [Hd [Hq ->]]]].
    apply entry_of_well_formed; [ exact Hd | exact (calls_at_positive _ _ _ Hq) ].
  - apply in_put_data in He. destruct He as [d [c [q [Hd [_ [Hq ->]]]]]].
    apply entry_of_well_formed; [ exact Hd | exact (puts_at_positive _ _ _ Hq) ].
Qed.

Lemma recorded_entries_well_formed_witness :
  well_formed [10; 30]%Z
    (entry_of 10 {| q_strike := 105; q_bid := 1; q_ask := 1.5 |}).
Proof.
  apply (recorded_entries_well_formed demo_provider [10; 30]%Z
           (fst (collect demo_provider [10; 30]%Z ([], [])))
           (call_data demo_provider [10; 30]%Z, put_data demo_provider [10; 30]%Z)).
  - vm_compute. reflexivity.
  - vm_compute. right. left. reflexivity.
Defined.

(** X7.  An expiration with no kept call leaves no put in
    [option_put_data], whatever puts its chain offers. *)
Theorem no_call_no_put (P : Provider) (exp_dates : list Z)
    (t : list step) (data : list entry * list entry) (d : Z) :
  collect P exp_dates ([], []) = (t, Done data) ->
  calls_at P d = [] ->
  forall e, In e (snd data) -> expirationDate e <> d.
Proof.
  intros H Hd e He. apply collect_result in H. subst data. simpl in He.
  apply in_put_data in He. destruct He as [d' [c [q [_ [Hc [_ ->]]]]]].
  simpl. intros ->. rewrite Hd in Hc. destruct Hc.
Qed.

Lemma no_call_no_put_witness :
  puts_at puts_only_provider 10 <> []
  /\ forall e, In e (put_data puts_only_provider [10]%Z) -> expirationDate e <> 10%Z.
Proof.
  split; [ vm_compute; discriminate | ].
  apply (no_call_no_put puts_only_provider [10]%Z
           (fst (collect puts_only_provider [10]%Z ([], [])))
           (call_data puts_only_provider [10]%Z, put_data puts_only_provider [10]%Z)).
  - vm_compute. reflexivity.
  - vm_compute. reflexivity.
Defined.

Lemma later_than_a_week_spec (today : Z) (expirations : list Z) (d : Z) :
  In d (later_than_a_week today expirations) -> (today + 8 <= d)%Z.
Proof.
  unfold later_than_a_week. intro H. apply filter_In in H.
  destruct H as [_ H]. apply Z.ltb_lt in H. lia.
Qed.

Lemma with_expiry_rows (today : Z) (data : list entry) (rows : list row) (r : row) :
  snd (with_expiry today data) = Done rows ->
  In r rows ->
  In (quoted r) data
  /\ daysToExpiration r = (expirationDate (quoted r) - today)%Z
  /\ timeToExpiration r = (float_of_Z (daysToExpiration r) / 365)%float.
Proof.
  unfold with_expiry. destruct data as [| e0 data]; simpl; [ discriminate | ].
  intros H Hr. inversion H; subst rows. clear H.
  change (In r (map (fun e => {| quoted := e;
                                 daysToExpiration := expirationDate e - today;
                                 timeToExpiration :=
                                   (float_of_Z (expirationDate e - today) / 365)%float |})
                    (e0 :: data))) in Hr.
  apply in_map_iff in Hr. destruct Hr as [e [<- He]]. simpl. auto.
Qed.

(** X8.  Every row of the two frames has at least 8 days to expiration:
    the filter of line 144 keeps the dates after [today + 7], and lines 209
    and 212 subtract the same [today]. *)
Theorem more_than_a_week_to_expiration (P : Provider) (today : Z)
    (expirations : list Z) (t : list step) (data : list entry * list entry)
    (call_rows put_rows : list row) (r : row) :
  collect P (later_than_a_week today expirations) ([], []) = (t, Done data) ->
  snd (with_expiry today (fst data)) = Done call_rows ->
  snd (with_expiry today (snd data)) = Done put_rows ->
  In r (call_rows ++ put_rows) ->
  (8 <= daysToExpiration r)%Z.
Proof.
  intros H Hc Hp Hr.
  assert (In (quoted r) (fst data ++ snd data)
          /\ daysToExpiration r = (expirationDate (quoted r) - today)%Z) as [Hin ->].
  { apply in_app_or in Hr. destruct Hr as [Hr | Hr].
    - destruct (with_expiry_rows _ _ _ _ Hc Hr) as [? [? _]].
      split; [ apply in_or_app; now left | assumption ].
    - destruct (with_expiry_rows _ _ _ _ Hp Hr) as [? [? _]].
      split; [ apply in_or_app; now right | assumption ]. }
  apply collect_result in H. subst data. simpl in Hin.
  assert (In (expirationDate (quoted r)) (later_than_a_week today expirations)) as Hd.
  { apply in_app_or in Hin. destruct Hin as [Hin | Hin].
    - apply in_call_data in Hin. destruct Hin as [d [q [Hd [_ ->]]]]. exact Hd.
    - apply in_put_data in Hin. destruct Hin as [d [c [q [Hd [_ [_ ->]]]]]]. exact Hd. }
  apply later_than_a_week_spec in Hd. lia.
Qed.

Lemma more_than_a_week_to_expiration_witness :
  (8 <= daysToExpiration
          {| quoted := entry_of 10 {| q_strike := 95; q_bid := 6; q_ask := 6.5 |};
             daysToExpiration := 10;
             timeToExpiration := (10 / 365)%float |})%Z.
Proof.
  apply (more_than_a_week_to_expiration demo_provider 0 [3; 10; 30]%Z
           (fst (collect demo_provider [10; 30]%Z ([], [])))
           (call_data demo_provider [10; 30]%Z, put_data demo_provider [10; 30]%Z)
           (rows_of (with_expiry 0 (call_data demo_provider [10; 30]%Z)))
           (rows_of (with_expiry 0 (put_data demo_provider [10; 30]%Z)))).
  - vm_compute. reflexivity.
  - vm_compute. reflexivity.
  - vm_compute. reflexivity.
  - vm_compute. left. reflexivity.
Defined.

(** *** The script as a whole *)

Lemma snd_andthen {A B} (m : Scr A) (k : A -> Scr B) :
  snd (andthen m k)
  = match snd m with
    | Done a => snd (k a)
    | Stopped => Stopped
    | Failed f => Failed f
    end.
Proof.
  destruct m as [t [a | | f]]; simpl; try reflexivity.
  destruct (k a). reflexivity.
Qed.

Lemma fst_andthen {A B} (m : Scr A) (k : A -> Scr B) :
  fst (andthen m k)
  = fst m ++ match snd m with Done a => fst (k a) | _ => [] end.
Proof.
  destruct m as [t [a | | f]]; simpl; try (now rewrite app_nil_r).
  destruct (k a). reflexivity.
Qed.

Lemma andthen_ext {A B} (m : Scr A) (k k' : A -> Scr B) :
  (forall a, k a = k' a) -> andthen m k = andthen m k'.
Proof.
  intro H. destruct m as [t [a | | f]]; simpl; try reflexivity.
  now rewrite H.
Qed.

Lemma options_df_unbound (L : Libm) : module_globals L !! "options_df" = None.
Proof. vm_compute. reflexivity. Qed.

Lemma collect_no_core (P : Provider) (exp_dates : list Z) data :
  forallb (fun s => negb (is_core s)) (fst (collect P exp_dates data)) = true.
Proof.
  revert data. induction exp_dates as [| d ds IH]; intro data; [ reflexivity | ].
  cbn [collect]. rewrite fst_andthen. cbn [emit fst snd].
  destruct (ticker_option_chain P d) as [[calls puts] | e].
  - apply IH.
  - rewrite fst_andthen. apply IH.
Qed.

Lemma collect_queries (P : Provider) (exp_dates : list Z) data :
  List.filter is_query (fst (collect P exp_dates data)) = map QueryChain exp_dates.
Proof.
  revert data. induction exp_dates as [| d ds IH]; intro data; [ reflexivity | ].
  cbn [collect]. rewrite fst_andthen. cbn [emit fst snd app map List.filter is_query].
  f_equal. destruct (ticker_option_chain P d) as [[calls puts] | e].
  - apply IH.
  - rewrite fst_andthen. cbn [emit fst snd app List.filter is_query]. apply IH.
Qed.

Lemma fetch_spot_queries (W : Sidebar) (P : Provider) :
  List.filter is_query (fst (fetch_spot W P)) = [QueryHistory].
Proof. unfold fetch_spot. destruct (ticker_history P) as [[| c cs] | e]; reflexivity. Qed.

Lemma with_expiry_silent (today : Z) (data : list entry) :
  fst (with_expiry today data) = [].
Proof. destruct data; reflexivity. Qed.

Lemma fetch_spot_no_core (W : Sidebar) (P : Provider) :
  forallb (fun s => negb (is_core s)) (fst (fetch_spot W P)) = true.
Proof. unfold fetch_spot. destruct (ticker_history P) as [[| c cs] | e]; reflexivity. Qed.

Section Unbound.
Variables (G : namespace) (W : Sidebar) (P : Provider) (today : Z).
Hypothesis options_df_missing : G !! "options_df" = None.

Lemma lookup_options_df :
  lift (load_global G "options_df") = ([], Failed (Uncaught (NameError "options_df"))).
Proof. unfold load_global. rewrite options_df_missing. reflexivity. Qed.

Lemma script_rest_irrelevant
    (rest rest' : list row -> list row -> float -> pyobj -> Scr unit) :
  script G rest W P today = script G rest' W P today.
Proof.
  unfold script.
  destruct (max_strike_pct W <=? min_strike_pct W)%float; [ reflexivity | ].
  apply andthen_ext. intros _. apply andthen_ext. intro expirations.
  destruct (later_than_a_week today expirations); [ reflexivity | ].
  apply andthen_ext. intro data. destruct (fst data); [ reflexivity | ].
  do 4 (apply andthen_ext; intro).
  rewrite lookup_options_df. reflexivity.
Qed.

Lemma script_no_core
    (rest : list row -> list row -> float -> pyobj -> Scr unit) :
  forallb (fun s => negb (is_core s)) (fst (script G rest W P today)) = true.
Proof.
  unfold script.
  destruct (max_strike_pct W <=? min_strike_pct W)%float; [ reflexivity | ].
  rewrite fst_andthen. cbn [emit fst snd]. rewrite fst_andthen.
  destruct (ticker_options P) as [expirations | e]; [ | reflexivity ].
  cbn [done fst snd app].
  destruct (later_than_a_week today expirations) as [| d ds]; [ reflexivity | ].
  rewrite fst_andthen. cbn [app forallb is_core negb andb].
  rewrite forallb_app, collect_no_core. cbn [andb].
  destruct (snd (collect P (d :: ds) ([], []))) as [data | | f]; try reflexivity.
  destruct (fst data) as [| e es]; [ reflexivity | ].
  rewrite fst_andthen, forallb_app, fetch_spot_no_core. cbn [andb].
  destruct (snd (fetch_spot W P)) as [spot | | f]; try reflexivity.
  rewrite fst_andthen, with_expiry_silent. cbn [app].
  destruct (snd (with_expiry today (e :: es))) as [crows | | f]; try reflexivity.
  rewrite fst_andthen, with_expiry_silent. cbn [app].
  destruct (snd (with_expiry today (snd data))) as [prows | | f]; try reflexivity.
  rewrite fst_andthen. cbn [emit fst snd]. rewrite fst_andthen, lookup_options_df.
  reflexivity.
Qed.

Lemma script_queries
    (rest : list row -> list row -> float -> pyobj -> Scr unit) (expirations : list Z) :
  (max_strike_pct W <=? min_strike_pct W)%float = false ->
  ticker_options P = Fetched expirations ->
  List.filter is_query (fst (script G rest W P today))
  = QueryOptions
      :: map QueryChain (later_than_a_week today expirations)
      ++ match call_data P (later_than_a_week today expirations) with
         | [] => []
         | _ => [QueryHistory]
         end.
Proof.
  intros Hguard Hopt. unfold script. rewrite Hguard, Hopt.
  rewrite fst_andthen. cbn [emit fst snd app List.filter is_query]. f_equal.
  rewrite fst_andthen. cbn [done fst snd app].
  destruct (later_than_a_week today expirations) as [| d ds]; [ reflexivity | ].
  rewrite fst_andthen, List.filter_app, collect_queries, collect_spec.
  f_equal. cbn [fst snd app].
  destruct (call_data P (d :: ds)) as [| e es]; [ reflexivity | ].
  rewrite fst_andthen, List.filter_app, fetch_spot_queries.
  rewrite <- (app_nil_r [QueryHistory]) at 1. f_equal.
  destruct (snd (fetch_spot W P)) as [spot | | f]; try reflexivity.
  rewrite fst_andthen, with_expiry_silent. cbn [app].
  destruct (snd (with_expiry today (e :: es))) as [crows | | f]; try reflexivity.
  rewrite fst_andthen, with_expiry_silent. cbn [app].
  destruct (snd (with_expiry today (put_data P (d :: ds)))) as [prows | | f];
    try reflexivity.
  rewrite fst_andthen. cbn [emit fst snd]. rewrite fst_andthen, lookup_options_df.
  reflexivity.
Qed.

End Unbound.

(** X9.  With the module as written a run never goes past the [apply] of
    line 229: what the lines after it would do has no influence on the
    run, and no run calls the solver or a pricer. *)
Theorem script_stops_short_of_solver (L : Libm) (W : Sidebar) (P : Provider) (today : Z)
    (rest rest' : list row -> list row -> float -> pyobj -> Scr unit) :
  script (module_globals L) rest W P today = script (module_globals L) rest' W P today
  /\ forallb (fun s => negb (is_core s))
       (fst (script (module_globals L) rest W P today)) = true.
Proof.
  split.
  - apply script_rest_irrelevant, options_df_unbound.
  - apply script_no_core, options_df_unbound.
Qed.

(** *** How a run ends *)

Lemma call_data_nonempty (P : Provider) (exp_dates : list Z) :
  call_data P exp_dates <> [] <-> some_call P exp_dates.
Proof.
  unfold some_call, call_data. induction exp_dates as [| d ds IH]; simpl.
  - split; [ congruence | intros [d [[] _]] ].
  - destruct (calls_at P d) as [| c cs] eqn:E; simpl.
    + rewrite IH. split.
      * intros [d' [H1 H2]]. exists d'. auto.
      * intros [d' [[<- | H1] H2]]; [ congruence | eauto ].
    + split; [ | discriminate ]. intros _. exists d. split; [ now left | ].
      rewrite E. discriminate.
Qed.

Lemma put_data_nonempty (P : Provider) (exp_dates : list Z) :
  put_data P exp_dates <> [] <-> some_call_and_put P exp_dates.
Proof.
  unfold some_call_and_put, put_data. induction exp_dates as [| d ds IH]; simpl.
  - split; [ congruence | intros [d [[] _]] ].
  - destruct (calls_at P d) as [| c cs] eqn:Ec; simpl.
    + rewrite IH. split.
      * intros [d' [H1 H2]]. exists d'. auto.
      * intros [d' [[<- | H1] [H2 H3]]]; [ congruence | eauto ].
    + destruct (puts_at P d) as [| q qs] eqn:Ep; simpl.
      * assert (flat_map (fun _ : quote => @nil entry) cs = []) as ->
          by (clear; induction cs; simpl; auto).
        simpl. rewrite IH. split.
        -- intros [d' [H1 H2]]. exists d'. auto.
        -- intros [d' [[<- | H1] [H2 H3]]]; [ congruence | eauto ].
      * split; [ | discriminate ]. intros _. exists d.
        rewrite Ec, Ep. repeat split; [ now left | discriminate | discriminate ].
Qed.

Lemma script_ending_spec (G : namespace) (W : Sidebar) (P : Provider) (today : Z)
    (rest : list row -> list row -> float -> pyobj -> Scr unit) :
  G !! "options_df" = None ->
  snd (script G rest W P today) = script_ending W P today.
Proof.
  intro HG. unfold script, script_ending.
  destruct (max_strike_pct W <=? min_strike_pct W)%float; [ reflexivity | ].
  rewrite snd_andthen. cbn [emit snd]. rewrite snd_andthen.
  destruct (ticker_options P) as [expirations | e]; [ | reflexivity ].
  cbn [done snd]. cbv zeta.
  destruct (later_than_a_week today expirations) as [| d ds] eqn:Eds; [ reflexivity | ].
  rewrite snd_andthen, collect_spec. cbn [fst snd app].
  destruct (call_data P (d :: ds)) as [| e es]; [ reflexivity | ].
  rewrite snd_andthen. unfold fetch_spot at 1. rewrite snd_andthen. cbn [emit snd].
  destruct (ticker_history P) as [[| c closes] | e']; try reflexivity.
  cbn [done snd]. rewrite snd_andthen. cbn [with_expiry done snd].
  rewrite snd_andthen.
  destruct (put_data P (d :: ds)) as [| p ps]; [ reflexivity | ].
  cbn [with_expiry done snd]. rewrite snd_andthen. cbn [emit snd].
  rewrite snd_andthen, (lookup_options_df G HG). reflexivity.
Qed.

(** X10.  A run ends with [NameError: options_df] (line 229) exactly when
    the strike range is accepted, the expirations and a non-empty price
    history are fetched, and some expiration more than a week away has a
    kept call and a kept put. *)
Theorem run_ends_in_name_error (L : Libm) (W : Sidebar) (P : Provider) (today : Z)
    (rest : list row -> list row -> float -> pyobj -> Scr unit) :
  snd (script (module_globals L) rest W P today)
  = Failed (Uncaught (NameError "options_df"))
  <-> (max_strike_pct W <=? min_strike_pct W)%float = false
      /\ (exists expirations, ticker_options P = Fetched expirations
            /\ some_call_and_put P (later_than_a_week today expirations))
      /\ (exists c closes, ticker_history P = Fetched (c :: closes)).
Proof.
  rewrite (script_ending_spec _ W P today rest (options_df_unbound L)).
  unfold script_ending.
  destruct (max_strike_pct W <=? min_strike_pct W)%float.
  { split; [ discriminate | intros [? _]; discriminate ]. }
  destruct (ticker_options P) as [expirations | e].
  2: { split; [ discriminate | intros [_ [[? [? _]] _]]; discriminate ]. }
  cbv zeta. set (ds := later_than_a_week today expirations).
  pose proof (call_data_nonempty P ds) as Hc.
  pose proof (put_data_nonempty P ds) as Hp.
  destruct (call_data P ds) as [| e es].
  { split; [ discriminate | ].
    intros [_ [[x [Hx [d [Hd [Hcd _]]]]] _]]. inversion Hx; subst x.
    exfalso. assert (some_call P ds) as Hs by (exists d; auto).
    apply Hc in Hs. now apply Hs. }
  destruct (ticker_history P) as [[| c closes] | e'].
  { split; [ discriminate | intros [_ [_ [? [? ?]]]]; discriminate ]. }
  2: { split; [ discriminate | intros [_ [_ [? [? ?]]]]; discriminate ]. }
  destruct (put_data P ds) as [| p ps].
  { split; [ discriminate | ].
    intros [_ [[x [Hx Hs]] _]]. inversion Hx; subst x.
    exfalso. apply Hp in Hs. now apply Hs. }
  split; [ intros _ | reflexivity ].
  split; [ reflexivity | ]. split.
  - exists expirations. split; [ reflexivity | ]. apply Hp. discriminate.
  - exists c, closes. reflexivity.
Qed.

(** X11.  A run ends with [KeyError: 'expirationDate'] (line 212) exactly
    when the strike range is accepted, the expirations and a non-empty price
    history are fetched, some expiration more than a week away has a kept
    call, and none has both a kept call and a kept put. *)
Theorem run_ends_in_key_error (L : Libm) (W : Sidebar) (P : Provider) (today : Z)
    (rest : list row -> list row -> float -> pyobj -> Scr unit) :
  snd (script (module_globals L) rest W P today) = Failed (KeyError "expirationDate")
  <-> (max_strike_pct W <=? min_strike_pct W)%float = false
      /\ (exists expirations, ticker_options P = Fetched expirations
            /\ some_call P (later_than_a_week today expirations)
            /\ ~ some_call_and_put P (later_than_a_week today expirations))
      /\ (exists c closes, ticker_history P = Fetched (c :: closes)).
Proof.
  rewrite (script_ending_spec _ W P today rest (options_df_unbound L)).
  unfold script_ending.
  destruct (max_strike_pct W <=? min_strike_pct W)%float.
  { split; [ discriminate | intros [? _]; discriminate ]. }
  destruct (ticker_options P) as [expirations | e].
  2: { split; [ discriminate | intros [_ [[? [? _]] _]]; discriminate ]. }
  cbv zeta. set (ds := later_than_a_week today expirations).
  pose proof (call_data_nonempty P ds) as Hc.
  pose proof (put_data_nonempty P ds) as Hp.
  destruct (call_data P ds) as [| e es].
  { split; [ discriminate | ].
    intros [_ [[x [Hx [Hs _]]] _]]. inversion Hx; subst x.
    exfalso. apply Hc in Hs. now apply Hs. }
  destruct (ticker_history P) as [[| c closes] | e'].
  { split; [ discriminate | intros [_ [_ [? [? ?]]]]; discriminate ]. }
  2: { split; [ discriminate | intros [_ [_ [? [? ?]]]]; discriminate ]. }
  destruct (put_data P ds) as [| p ps].
  - split; [ intros _ | reflexivity ].
    split; [ reflexivity | ]. split.
    + exists expirations. split; [ reflexivity | ]. split.
      * apply Hc. discriminate.
      * intro Hs. apply Hp in Hs. now apply Hs.
    + exists c, closes. reflexivity.
  - split; [ discriminate | ].
    intros [_ [[x [Hx [_ Hn]]] _]]. inversion Hx; subst x.
    exfalso. apply Hn, Hp. discriminate.
Qed.

(** X12.  A run reaches the end of the script exactly when the strike
    range is accepted, the expirations are fetched, and no expiration more
    than a week away has a kept call: the runs that end normally are those
    that show [No available option expiration dates] or [No option data
    available after filtering]. *)
Theorem run_completes_only_without_data (L : Libm) (W : Sidebar) (P : Provider)
    (today : Z) (rest : list row -> list row -> float -> pyobj -> Scr unit) :
  snd (script (module_globals L) rest W P today) = Done tt
  <-> (max_strike_pct W <=? min_strike_pct W)%float = false
      /\ exists expirations, ticker_options P = Fetched expirations
           /\ forall d, In d (later_than_a_week today expirations) -> calls_at P d = [].
Proof.
  rewrite (script_ending_spec _ W P today rest (options_df_unbound L)).
  unfold script_ending.
  destruct (max_strike_pct W <=? min_strike_pct W)%float.
  { split; [ discriminate | intros [? _]; discriminate ]. }
  destruct (ticker_options P) as [expirations | e].
  2: { split; [ discriminate | intros [_ [? [? _]]]; discriminate ]. }
  cbv zeta. set (ds := later_than_a_week today expirations).
  pose proof (call_data_nonempty P ds) as Hc.
  destruct (call_data P ds) as [| e es].
  - split; [ intros _ | reflexivity ].
    split; [ reflexivity | ]. exists expirations. split; [ reflexivity | ].
    intros d Hd. destruct (calls_at P d) as [| c cs] eqn:E; [ reflexivity | ].
    exfalso. assert (some_call P ds) as Hs.
    { exists d. split; [ exact Hd | rewrite E; discriminate ]. }
    apply Hc in Hs. now apply Hs.
  - assert (some_call P ds) as [d [Hd Hne]] by (apply Hc; discriminate).
    split.
    + destruct (ticker_history P) as [[| c closes] | e'];
        [ discriminate | destruct (put_data P ds); discriminate | discriminate ].
    + intros [_ [x [Hx Hall]]]. inversion Hx; subst x.
      exfalso. apply Hne, Hall, Hd.
Qed.

(** X13.  The requests a run sends to the provider, once the strike range
    is accepted and the expirations are fetched: the expirations, then the
    chain of every expiration more than a week away, once each and in order
    (also after a chain that failed), then the price history if and only if
    a call was kept. *)
Theorem provider_queries (L : Libm) (W : Sidebar) (P : Provider) (today : Z)
    (rest : list row -> list row -> float -> pyobj -> Scr unit) (expirations : list Z) :
  (max_strike_pct W <=? min_strike_pct W)%float = false ->
  ticker_options P = Fetched expirations ->
  List.filter is_query (fst (script (module_globals L) rest W P today))
  = QueryOptions
      :: map QueryChain (later_than_a_week today expirations)
      ++ match call_data P (later_than_a_week today expirations) with
         | [] => []
         | _ => [QueryHistory]
         end.
Proof. apply script_queries, options_df_unbound. Qed.

Lemma provider_queries_witness :
  List.filter is_query
    (fst (script (module_globals libm_model) (fun _ _ _ _ => done tt)
            demo_sidebar demo_provider 0))
  = [QueryOptions; QueryChain 10; QueryChain 30; QueryHistory].
Proof.
  apply (provider_queries libm_model demo_sidebar demo_provider 0
           (fun _ _ _ _ => done tt) [3; 10; 30]%Z).
  - vm_compute. reflexivity.
  - reflexivity.
Defined.

Lemma run_ends_in_name_error_witness :
  snd (script (module_globals libm_model) (fun _ _ _ _ => done tt)
         demo_sidebar demo_provider 0)
  = Failed (Uncaught (NameError "options_df")).
Proof.
  apply (proj2 (run_ends_in_name_error libm_model demo_sidebar demo_provider 0
                  (fun _ _ _ _ => done tt))).
  split; [ vm_compute; reflexivity | ]. split.
  - exists [3; 10; 30]%Z. split; [ reflexivity | ]. exists 10%Z.
    split; [ vm_compute; left; reflexivity | ].
    split; vm_compute; discriminate.
  - eexists _, _. reflexivity.
Defined.

Lemma run_ends_in_key_error_witness :
  snd (script (module_globals libm_model) (fun _ _ _ _ => done tt)
         demo_sidebar calls_only_provider 0)
  = Failed (KeyError "expirationDate").
Proof.
  apply (proj2 (run_ends_in_key_error libm_model demo_sidebar calls_only_provider 0
                  (fun _ _ _ _ => done tt))).
  split; [ vm_compute; reflexivity | ]. split.
  - exists [10]%Z. split; [ reflexivity | ]. split.
    + exists 10%Z. split; [ vm_compute; left; reflexivity | vm_compute; discriminate ].
    + intros [d [_ [_ H]]]. apply H. reflexivity.
  - eexists _, _. reflexivity.
Defined.

Lemma run_completes_only_without_data_witness :
  snd (script (module_globals libm_model) (fun _ _ _ _ => done tt)
         demo_sidebar puts_only_provider 0)
  = Done tt.
Proof.
  apply (proj2 (run_completes_only_without_data libm_model demo_sidebar
                  puts_only_provider 0 (fun _ _ _ _ => done tt))).
  split; [ vm_compute; reflexivity | ].
  exists [10]%Z. split; [ reflexivity | ]. intros d _. vm_compute. reflexivity.
Defined.

End ScriptProperties.
